(** * goal_planner: the SWP solver of [planner_core.py]

    A shallow embedding of [planner_core.py] over the real numbers, and the
    properties of the solver stated in the specification.

    Numbers.  Python floats are read as real numbers ([R]): rounding error,
    overflow, infinities and NaN are outside the model, so "equal within
    floating-point tolerance" becomes equality.  Python ints are [Z].
    On floats [**] raises [OverflowError] when its result is out of range,
    and [round] and the comparisons see rounded values.  The properties of
    values are therefore stated for the values that the powers, the engines
    and the solver return, whenever they return, and a month count is fixed
    by a hypothesis that holds of the product however it is rounded.

    Failure.  Every operation that can raise in Python returns a [result];
    the exception classes are the constructors of [exn].

    Cost.  The solver runs in a writer monad over [result] that records the
    helper calls and the loop iterations it performs, in order. *)

From Stdlib Require Import Reals Lra Lia ZArith List Bool.
From Equations Require Import Equations.
Import ListNotations.

Local Open Scope R_scope.

(** ** Exceptions and the error monad *)

(** [ValueError] is the invalid-input error, [RuntimeError] the
    goal-unreachable error.  [ComplexResult] stands for a power with a
    negative base and a fractional exponent: Python leaves the floats there
    (the value is a complex number, which the later comparisons reject); the
    model stops at that point. *)
Inductive exn : Set :=
| ValueError
| RuntimeError
| ZeroDivisionError
| TypeError
| ComplexResult.

Inductive result (A : Type) : Type :=
| Ok (a : A)
| Raise (e : exn).

Arguments Ok {A} a.
Arguments Raise {A} e.

Definition bind {A B : Type} (m : result A) (k : A -> result B) : result B :=
  match m with
  | Ok a => k a
  | Raise e => Raise e
  end.

Declare Scope result_scope.
Delimit Scope result_scope with result.
Notation "x <- m ;; k" := (bind m (fun x => k))
  (at level 61, m at next level, right associativity) : result_scope.

(** ** Python arithmetic on the reals *)

(** [x / y] on floats. *)
Definition py_div (x y : R) : result R :=
  if Req_dec_T y 0 then Raise ZeroDivisionError else Ok (x / y).

(** [x ** y] on floats.  An int exponent [n] is passed as [IZR n].  The
    reals have no largest number: the [OverflowError] that Python raises
    when the power is out of range has no counterpart here, which is why the
    properties of values below assume that the power has returned. *)
Definition py_pow (x y : R) : result R :=
  if Rlt_dec 0 x then Ok (Rpower x y)
  else if Req_dec_T x 0 then
    if Rlt_dec y 0 then Raise ZeroDivisionError
    else if Req_dec_T y 0 then Ok 1 else Ok 0
  else if Req_dec_T (IZR (Int_part y)) y then Ok (powerRZ x (Int_part y))
  else Raise ComplexResult.

(** [int(round(x))]: Python 3 rounds to the nearest integer, a tie to the
    even one. *)
Definition py_round (x : R) : Z :=
  let f := Int_part x in
  let d := x - IZR f in
  if Rlt_dec d (1 / 2) then f
  else if Rlt_dec (1 / 2) d then (f + 1)%Z
  else if Z.even f then f else (f + 1)%Z.

(** [max(a, b)]: the first argument unless the second is larger. *)
Definition py_max (a b : R) : R :=
  if Rgt_dec b a then b else a.

(** ** The engines *)

Section Engines.
Local Open Scope result_scope.

(** [(1 + r_annual) ** (1 / 12) - 1] *)
Definition _gross_monthly (r_annual : R) : result R :=
  p <- py_pow (1 + r_annual) (1 / 12) ;;
  Ok (p - 1).

(** Future value before tax (ordinary annuity). *)
Definition _fv_before_tax (L M r : R) (n : Z) : result R :=
  p <- py_pow (1 + r) (IZR n) ;;
  let fv := L * p in
  a <- (if Rgt_dec (Rabs r) 1e-12
        then q <- py_pow (1 + r) (IZR n) ;; py_div (M * (q - 1)) r
        else Ok (M * IZR n)) ;;
  Ok (fv + a).

Definition _corpus_after_tax (L M r : R) (n : Z) (tax : R) : result R :=
  fv_bt <- _fv_before_tax L M r n ;;
  let gains := fv_bt - (L + M * IZR n) in
  Ok (fv_bt - py_max gains 0 * tax).

(** Corpus required at retirement to pay an inflation-indexed SWP. *)
Definition _corpus_needed_for_swp (A_today Ti Tw infl r_month : R) : result R :=
  p <- py_pow (1 + infl) (1 / 12) ;;
  let g := p - 1 in
  let M := py_round (Tw * 12) in
  w <- py_pow (1 + infl) Ti ;;
  let W0 := A_today * w in
  if Rlt_dec (Rabs (r_month - g)) 1e-12
  then py_div (W0 * IZR M) (1 + r_month)
  else
    k <- py_div (1 + g) (1 + r_month) ;;
    kM <- py_pow k (IZR M) ;;
    py_div (W0 * (1 - kM)) (r_month - g).

End Engines.

(** ** The traced monad of the solver *)

Inductive event : Set :=
| EvGrossMonthly
| EvCorpusNeeded
| EvCorpusAfterTax
| EvIteration (months : Z).

Definition Traced (A : Type) : Type := (list event * result A)%type.

Definition ret {A : Type} (a : A) : Traced A := ([], Ok a).

Definition traise {A : Type} (e : exn) : Traced A := ([], Raise e).

Definition tbind {A B : Type} (m : Traced A) (k : A -> Traced B) : Traced B :=
  match m with
  | (t, Ok a) => let (t', o) := k a in (t ++ t', o)
  | (t, Raise e) => (t, Raise e)
  end.

(** An operation of the solver's own body: no event. *)
Definition lift {A : Type} (m : result A) : Traced A := ([], m).

(** A call of a helper: one event, then its outcome. *)
Definition call {A : Type} (ev : event) (m : result A) : Traced A := ([ev], m).

Definition tick (ev : event) : Traced unit := ([ev], Ok tt).

(** Use of an argument as a number: [None * 12] is a [TypeError]. *)
Definition num (x : option R) : Traced R :=
  match x with
  | Some v => ret v
  | None => traise TypeError
  end.

Declare Scope traced_scope.
Delimit Scope traced_scope with traced.
Notation "x <- m ;; k" := (tbind m (fun x => k))
  (at level 61, m at next level, right associativity) : traced_scope.
Notation "m ;; k" := (tbind m (fun _ => k))
  (at level 61, right associativity) : traced_scope.

Definition outcome {A : Type} (m : Traced A) : result A := snd m.
Definition trace {A : Type} (m : Traced A) : list event := fst m.

(** ** The solver *)

Record swp_result : Type := mk_result {
  res_I : R;
  res_Mi : R;
  res_Ti : R;
  corpus_at_retirement : R
}.

(** [[Ti, Mi, I].count(None)] *)
Definition count_None (l : list (option R)) : nat :=
  length (filter (fun x => match x with None => true | Some _ => false end) l).

Section Search.
Local Open Scope traced_scope.

Variables (A_today Tw inflation_rate r tax_rate I Mi : R).
Variable search_cap_years : Z.

(** The [while months <= search_cap_years * 12] loop of the unknown-[Ti]
    branch, entered at [months]; its [else] raises. *)
Equations? search_Ti (months : Z) : Traced R
    by wf (Z.to_nat (search_cap_years * 12 + 1 - months)) lt :=
  search_Ti months with Z_le_dec months (search_cap_years * 12) := {
    | left _ :=
        tick (EvIteration months) ;;
        let yrs_now := IZR months / 12 in
        Cneed <- call EvCorpusNeeded
                   (_corpus_needed_for_swp A_today yrs_now Tw inflation_rate r) ;;
        Chave <- call EvCorpusAfterTax
                   (_corpus_after_tax I Mi r months tax_rate) ;;
        if Rge_dec Chave Cneed then ret yrs_now
        else search_Ti (months + 1) ;
    | right _ := traise RuntimeError }.
Proof. lia. Qed.

End Search.

Section Solver.
Local Open Scope traced_scope.

(** [solve_swp]: exactly one of [Ti], [Mi], [I] must be [None]; that
    variable is solved for.  A primed name is the number an argument holds.
    The branches yield the resolved triple [(I, Mi, Ti)], from which the
    final corpus is recomputed. *)
Definition solve_swp (A_today Tw inflation_rate annual_return tax_rate : R)
    (Ti Mi I : option R) (search_cap_years : Z) : Traced swp_result :=
  if negb (count_None [Ti; Mi; I] =? 1)%nat then traise ValueError else
  r <- call EvGrossMonthly (_gross_monthly annual_return) ;;
  resolved <-
    match I, Mi with
    | None, _ =>
        (* Unknown I *)
        Ti' <- num Ti ;;
        let n := py_round (Ti' * 12) in
        Cn <- call EvCorpusNeeded
                (_corpus_needed_for_swp A_today Ti' Tw inflation_rate r) ;;
        growth <- lift (py_pow (1 + r) (IZR n)) ;;
        annuity <- lift (if Rgt_dec (Rabs r) 1e-12
                         then py_div (growth - 1) r else Ok (IZR n)) ;;
        let A_L := (1 - tax_rate) * growth + tax_rate in
        let A_M := (1 - tax_rate) * annuity + tax_rate * IZR n in
        Mi' <- num Mi ;;
        I' <- lift (py_div (Cn - A_M * Mi') A_L) ;;
        ret (I', Mi', Ti')
    | Some I', None =>
        (* Unknown Mi *)
        Ti' <- num Ti ;;
        let n := py_round (Ti' * 12) in
        Cn <- call EvCorpusNeeded
                (_corpus_needed_for_swp A_today Ti' Tw inflation_rate r) ;;
        growth <- lift (py_pow (1 + r) (IZR n)) ;;
        annuity <- lift (if Rgt_dec (Rabs r) 1e-12
                         then py_div (growth - 1) r else Ok (IZR n)) ;;
        let A_L := (1 - tax_rate) * growth + tax_rate in
        let A_M := (1 - tax_rate) * annuity + tax_rate * IZR n in
        Mi' <- lift (py_div (Cn - A_L * I') A_M) ;;
        ret (I', Mi', Ti')
    | Some I', Some Mi' =>
        (* Unknown Ti *)
        Ti' <- search_Ti A_today Tw inflation_rate r tax_rate I' Mi'
                 search_cap_years 0 ;;
        ret (I', Mi', Ti')
    end ;;
  (* Final corpus check *)
  let '(I', Mi', Ti') := resolved in
  let n_final := py_round (Ti' * 12) in
  C_after <- call EvCorpusAfterTax
               (_corpus_after_tax I' Mi' r n_final tax_rate) ;;
  ret {| res_I := I'; res_Mi := Mi'; res_Ti := Ti';
         corpus_at_retirement := C_after |}.

End Solver.

(** ** The formulas of the specification *)

(** Section 4.1: the effective monthly rate. *)
Definition spec_monthly_rate (r_annual : R) : R :=
  Rpower (1 + r_annual) (1 / 12) - 1.

(** Section 4.2: lump sum compounded for [n] months plus an ordinary
    annuity of [n] contributions. *)
Definition spec_future_value (L M r : R) (n : nat) : R :=
  if Rgt_dec (Rabs r) 1e-12
  then L * (1 + r) ^ n + M * ((1 + r) ^ n - 1) / r
  else L * (1 + r) ^ n + M * INR n.

(** Section 4.3: future value less tax on the gain, the gain clamped at 0. *)
Definition spec_post_tax_corpus (L M r : R) (n : nat) (tax : R) : R :=
  let fv := spec_future_value L M r n in
  fv - tax * Rmax (fv - (L + M * INR n)) 0.

(** Section 4.4: present value of the growing annuity of withdrawals. *)
Definition spec_required_corpus (A_today Ti Tw infl r_month : R) : R :=
  let g := Rpower (1 + infl) (1 / 12) - 1 in
  let M := py_round (Tw * 12) in
  let W0 := A_today * Rpower (1 + infl) Ti in
  if Rlt_dec (Rabs (r_month - g)) 1e-12
  then W0 * IZR M / (1 + r_month)
  else
    let k := (1 + g) / (1 + r_month) in
    W0 * (1 - powerRZ k M) / (r_month - g).

(** After [m] whole months the available corpus (section 4.3, [n = m])
    meets or exceeds the required corpus (section 4.4, [Ti = m / 12]). *)
Definition meets (A_today Tw infl r tax I Mi : R) (m : Z) : Prop :=
  spec_post_tax_corpus I Mi r (Z.to_nat m) tax
  >= spec_required_corpus A_today (IZR m / 12) Tw infl r.

(** The test [Chave >= Cneed] of one iteration of the search, on the values
    the two engines return at month [m]: both calls return, and the test
    passes ([reaches]) or fails ([falls_short]).  A month at which an engine
    raises does neither. *)
Definition reaches (A_today Tw infl r tax I Mi : R) (m : Z) : Prop :=
  exists Cneed Chave : R,
    _corpus_needed_for_swp A_today (IZR m / 12) Tw infl r = Ok Cneed
    /\ _corpus_after_tax I Mi r m tax = Ok Chave
    /\ Chave >= Cneed.

Definition falls_short (A_today Tw infl r tax I Mi : R) (m : Z) : Prop :=
  exists Cneed Chave : R,
    _corpus_needed_for_swp A_today (IZR m / 12) Tw infl r = Ok Cneed
    /\ _corpus_after_tax I Mi r m tax = Ok Chave
    /\ ~ Chave >= Cneed.

(** The number of loop iterations recorded in a trace. *)
Definition is_iteration (ev : event) : bool :=
  match ev with
  | EvIteration _ => true
  | _ => false
  end.

Definition iterations (t : list event) : nat := length (filter is_iteration t).

(** The exceptions of the arithmetic itself. *)
Definition arith_exn (e : exn) : Prop :=
  e = ZeroDivisionError \/ e = ComplexResult.

(** Whatever [m] raises satisfies [P]. *)
Definition raises_within {A : Type} (P : exn -> Prop) (m : result A) : Prop :=
  forall e : exn, m = Raise e -> P e.

(** Section 4.5: the annuity factor and the linear after-tax coefficients of
    a lump sum ([A_L]) and of a contribution stream ([A_M]) over [n] months. *)
Definition spec_annuity (r : R) (n : nat) : R :=
  if Rgt_dec (Rabs r) 1e-12 then ((1 + r) ^ n - 1) / r else INR n.

Definition spec_A_L (tax r : R) (n : nat) : R :=
  (1 - tax) * (1 + r) ^ n + tax.

Definition spec_A_M (tax r : R) (n : nat) : R :=
  (1 - tax) * spec_annuity r n + tax * INR n.


(** Section 4.4 without the first withdrawal: the value of [M] payments of
    1 growing at [g] and discounted at [r]. *)
Definition spec_pv_factor (g r : R) (M : Z) : R :=
  if Rlt_dec (Rabs (r - g)) 1e-12
  then IZR M / (1 + r)
  else (1 - powerRZ ((1 + g) / (1 + r)) M) / (r - g).

(** * Properties *)

(** ** Rounding *)

Lemma Int_part_IZR (z : Z) : Int_part (IZR z) = z.
Proof. symmetry. apply Int_part_spec. lra. Qed.

Lemma py_round_IZR (z : Z) : py_round (IZR z) = z.
Proof.
  unfold py_round. rewrite Int_part_IZR.
  destruct (Rlt_dec _ _) as [_ | H]; [reflexivity | lra].
Qed.

Lemma py_round_bounds (x : R) :
  IZR (py_round x) - 1 / 2 <= x <= IZR (py_round x) + 1 / 2.
Proof.
  unfold py_round.
  destruct (base_Int_part x) as [Hlo Hhi].
  destruct (Rlt_dec _ _) as [H1 | H1].
  - lra.
  - destruct (Rlt_dec _ _) as [H2 | H2].
    + rewrite plus_IZR. lra.
    + destruct (Z.even _); [| rewrite plus_IZR]; lra.
Qed.


Lemma py_round_mono (x y : R) : x <= y -> (py_round x <= py_round y)%Z.
Proof.
  intros Hxy.
  destruct (Z_le_gt_dec (py_round x) (py_round y)) as [H | H]; [exact H |].
  exfalso.
  pose proof (py_round_bounds x) as [Bx _].
  pose proof (py_round_bounds y) as [_ By].
  assert (Hz : (py_round y + 1 <= py_round x)%Z) by lia.
  apply IZR_le in Hz. rewrite plus_IZR in Hz.
  assert (x = y) by lra. subst y. lia.
Qed.

(** A tie goes to the even neighbour: [round(0.5) = 0], [round(1.5) = 2],
    [round(2.5) = 2]. *)
Lemma py_round_tie (z : Z) :
  py_round (IZR z + 1 / 2) = if Z.even z then z else (z + 1)%Z.
Proof.
  unfold py_round.
  replace (Int_part (IZR z + 1 / 2)) with z by (apply Int_part_spec; lra).
  destruct (Rlt_dec _ _) as [H | _]; [lra |].
  destruct (Rlt_dec _ _) as [H | _]; [lra |].
  reflexivity.
Qed.

Example py_round_ties :
  py_round (1 / 2) = 0%Z /\ py_round (3 / 2) = 2%Z /\ py_round (5 / 2) = 2%Z.
Proof.
  replace (1 / 2) with (IZR 0 + 1 / 2) at 1 by lra.
  replace (3 / 2) with (IZR 1 + 1 / 2) by lra.
  replace (5 / 2) with (IZR 2 + 1 / 2) by lra.
  rewrite !py_round_tie. repeat split.
Qed.

Lemma py_round_months (m : Z) : py_round (IZR m / 12 * 12) = m.
Proof.
  replace (IZR m / 12 * 12) with (IZR m) by field.
  apply py_round_IZR.
Qed.

Lemma py_round_nonneg (x : R) : 0 <= x -> (0 <= py_round x)%Z.
Proof.
  intros H. rewrite <- (py_round_IZR 0). now apply py_round_mono.
Qed.

(** ** Powers and quotients *)

Lemma py_pow_pos (x y : R) : 0 < x -> py_pow x y = Ok (Rpower x y).
Proof.
  intros H. unfold py_pow. destruct (Rlt_dec 0 x); [reflexivity | contradiction].
Qed.

Lemma Rpower_IZR_nat (x : R) (n : Z) :
  0 < x -> (0 <= n)%Z -> Rpower x (IZR n) = x ^ Z.to_nat n.
Proof.
  intros Hx Hn. rewrite <- (Rpower_pow _ _ Hx).
  rewrite INR_IZR_INZ, Z2Nat.id by exact Hn. reflexivity.
Qed.

Lemma powerRZ_nat (x : R) (n : Z) : (0 <= n)%Z -> powerRZ x n = x ^ Z.to_nat n.
Proof.
  intros Hn. destruct n as [| p | p]; [reflexivity | reflexivity | lia].
Qed.

Lemma py_pow_nat (x : R) (n : Z) :
  (0 <= n)%Z -> py_pow x (IZR n) = Ok (x ^ Z.to_nat n).
Proof.
  intros Hn. unfold py_pow.
  destruct (Rlt_dec 0 x) as [Hx | Hx].
  - now rewrite Rpower_IZR_nat.
  - destruct (Req_dec_T x 0) as [-> | Hx0].
    + destruct (Rlt_dec (IZR n) 0) as [Hneg | _].
      * apply IZR_le in Hn. lra.
      * destruct (Req_dec_T (IZR n) 0) as [H0 | H0].
        -- apply eq_IZR in H0. subst n. reflexivity.
        -- assert (n <> 0%Z) by (intros ->; now apply H0).
           destruct (Z.to_nat n) as [| k] eqn:E; [lia |].
           simpl. now rewrite Rmult_0_l.
    + rewrite Int_part_IZR.
      destruct (Req_dec_T _ _) as [_ | H]; [| contradiction].
      now rewrite powerRZ_nat.
Qed.

Lemma py_div_ok (x y : R) : y <> 0 -> py_div x y = Ok (x / y).
Proof.
  intros H. unfold py_div. destruct (Req_dec_T y 0); [contradiction | reflexivity].
Qed.

Lemma py_div_zero (x : R) : py_div x 0 = Raise ZeroDivisionError.
Proof.
  unfold py_div. destruct (Req_dec_T 0 0) as [_ | H]; [reflexivity | now elim H].
Qed.

Lemma py_max_Rmax (a b : R) : py_max a b = Rmax a b.
Proof.
  unfold py_max, Rmax.
  destruct (Rgt_dec b a), (Rle_dec a b); lra.
Qed.

Lemma Rpower_pos (x y : R) : 0 < Rpower x y.
Proof. unfold Rpower. apply exp_pos. Qed.

(** ** The engines return the formulas of the specification *)

Lemma Rpower_one (y : R) : Rpower 1 y = 1.
Proof. unfold Rpower. rewrite ln_1, Rmult_0_r. apply exp_0. Qed.

Lemma spec_monthly_rate_gt (a : R) : -1 < spec_monthly_rate a.
Proof. unfold spec_monthly_rate. pose proof (Rpower_pos (1 + a) (1 / 12)). lra. Qed.

Lemma spec_monthly_rate_0 : spec_monthly_rate 0 = 0.
Proof. unfold spec_monthly_rate. rewrite Rplus_0_r, Rpower_one. ring. Qed.

Lemma gross_monthly_ok (a : R) :
  -1 < a -> _gross_monthly a = Ok (spec_monthly_rate a).
Proof.
  intros Ha. unfold _gross_monthly.
  rewrite py_pow_pos by lra. reflexivity.
Qed.

Lemma Rabs_gt_nonzero (r eps : R) : 0 <= eps -> Rabs r > eps -> r <> 0.
Proof.
  intros He H ->. rewrite Rabs_R0 in H. lra.
Qed.

Lemma INR_to_nat (n : Z) : (0 <= n)%Z -> INR (Z.to_nat n) = IZR n.
Proof. intros Hn. now rewrite INR_IZR_INZ, Z2Nat.id. Qed.

Lemma fv_before_tax_ok (L M r : R) (n : Z) :
  (0 <= n)%Z ->
  _fv_before_tax L M r n = Ok (spec_future_value L M r (Z.to_nat n)).
Proof.
  intros Hn. unfold _fv_before_tax, spec_future_value.
  rewrite py_pow_nat by exact Hn. cbn [bind].
  destruct (Rgt_dec (Rabs r) 1e-12) as [Hr | Hr].
  - rewrite py_div_ok by (apply (Rabs_gt_nonzero r 1e-12); lra).
    reflexivity.
  - cbn [bind]. now rewrite INR_to_nat.
Qed.

Lemma corpus_after_tax_ok (L M r : R) (n : Z) (tax : R) :
  (0 <= n)%Z ->
  _corpus_after_tax L M r n tax = Ok (spec_post_tax_corpus L M r (Z.to_nat n) tax).
Proof.
  intros Hn. unfold _corpus_after_tax, spec_post_tax_corpus.
  rewrite fv_before_tax_ok by exact Hn. cbn [bind].
  rewrite py_max_Rmax, INR_to_nat by exact Hn.
  f_equal. ring.
Qed.

Lemma py_pow_int (k : R) (M : Z) :
  k <> 0 -> py_pow k (IZR M) = Ok (powerRZ k M).
Proof.
  intros Hk. unfold py_pow.
  destruct (Rlt_dec 0 k) as [Hpos | Hneg].
  - now rewrite powerRZ_Rpower.
  - destruct (Req_dec_T k 0) as [H0 | _]; [contradiction |].
    rewrite Int_part_IZR.
    destruct (Req_dec_T (IZR M) (IZR M)) as [_ | H]; [reflexivity | now elim H].
Qed.

(** The corpus requirement for any monthly rate other than -1. *)
Lemma corpus_needed_defined (A_today Ti Tw infl r_month : R) :
  -1 < infl -> r_month <> -1 ->
  _corpus_needed_for_swp A_today Ti Tw infl r_month
  = Ok (spec_required_corpus A_today Ti Tw infl r_month).
Proof.
  intros Hi Hr. unfold _corpus_needed_for_swp, spec_required_corpus.
  rewrite !py_pow_pos by lra. cbn [bind].
  set (g := Rpower (1 + infl) (1 / 12) - 1).
  assert (Hg : 0 < 1 + g) by (unfold g; pose proof (Rpower_pos (1 + infl) (1 / 12)); lra).
  assert (Hr1 : 1 + r_month <> 0) by lra.
  destruct (Rlt_dec (Rabs (r_month - g)) 1e-12) as [He | He].
  - now apply py_div_ok.
  - rewrite py_div_ok by exact Hr1. cbn [bind].
    assert (Hk : (1 + g) / (1 + r_month) <> 0).
    { unfold Rdiv. apply Rmult_integral_contrapositive_currified; [lra |].
      now apply Rinv_neq_0_compat. }
    rewrite py_pow_int by exact Hk. cbn [bind].
    apply py_div_ok.
    intros H0. apply He. rewrite H0, Rabs_R0. lra.
Qed.

Lemma corpus_needed_ok (A_today Ti Tw infl r_month : R) :
  -1 < infl -> -1 < r_month ->
  _corpus_needed_for_swp A_today Ti Tw infl r_month
  = Ok (spec_required_corpus A_today Ti Tw infl r_month).
Proof.
  intros Hi Hr. apply corpus_needed_defined; lra.
Qed.

(** ** The search loop *)

Section Loop.
Variables (A_today Tw inflation_rate r tax_rate I Mi : R).
Variable search_cap_years : Z.

Lemma search_Ti_exit (months : Z) :
  (search_cap_years * 12 < months)%Z ->
  search_Ti A_today Tw inflation_rate r tax_rate I Mi search_cap_years months
  = traise RuntimeError.
Proof.
  intros H. rewrite search_Ti_equation_1.
  destruct (Z_le_dec months (search_cap_years * 12)) as [Hle | Hgt]; [lia |].
  reflexivity.
Qed.

Lemma search_Ti_enter (months : Z) :
  (months <= search_cap_years * 12)%Z ->
  search_Ti A_today Tw inflation_rate r tax_rate I Mi search_cap_years months =
  (tick (EvIteration months) ;;
   Cneed <- call EvCorpusNeeded
              (_corpus_needed_for_swp A_today (IZR months / 12) Tw inflation_rate r) ;;
   Chave <- call EvCorpusAfterTax (_corpus_after_tax I Mi r months tax_rate) ;;
   if Rge_dec Chave Cneed then ret (IZR months / 12)
   else search_Ti A_today Tw inflation_rate r tax_rate I Mi search_cap_years
          (months + 1))%traced.
Proof.
  intros H.
  rewrite (search_Ti_equation_1 A_today Tw inflation_rate r tax_rate I Mi
             search_cap_years months).
  destruct (Z_le_dec months (search_cap_years * 12)) as [Hle | Hgt]; [| lia].
  reflexivity.
Qed.

Hypothesis Hinfl : -1 < inflation_rate.
Hypothesis Hr : -1 < r.

(** One iteration, on the domain where the engines are defined. *)
Lemma search_Ti_step (months : Z) :
  (0 <= months <= search_cap_years * 12)%Z ->
  search_Ti A_today Tw inflation_rate r tax_rate I Mi search_cap_years months =
  if Rge_dec (spec_post_tax_corpus I Mi r (Z.to_nat months) tax_rate)
             (spec_required_corpus A_today (IZR months / 12) Tw inflation_rate r)
  then ([EvIteration months; EvCorpusNeeded; EvCorpusAfterTax],
        Ok (IZR months / 12))
  else
    let (t, o) := search_Ti A_today Tw inflation_rate r tax_rate I Mi
                    search_cap_years (months + 1) in
    (EvIteration months :: EvCorpusNeeded :: EvCorpusAfterTax :: t, o).
Proof.
  intros [H0 Hle]. rewrite search_Ti_enter by exact Hle.
  rewrite corpus_needed_ok by assumption.
  rewrite corpus_after_tax_ok by exact H0.
  unfold tbind, tick, call, ret.
  destruct (Rge_dec _ _) as [Hge | Hlt]; [reflexivity |].
  destruct (search_Ti _ _ _ _ _ _ _ _ _) as [t o]. reflexivity.
Qed.

End Loop.

(** ** The unknown-[Ti] branch *)

Lemma outcome_tbind {A B : Type} (m : Traced A) (k : A -> Traced B) :
  outcome (tbind m k) =
  match outcome m with
  | Ok a => outcome (k a)
  | Raise e => Raise e
  end.
Proof.
  destruct m as [t [a | e]]; cbn; [| reflexivity].
  destruct (k a) as [t' o]. reflexivity.
Qed.

Lemma solve_swp_Ti_outcome (A_today Tw inflation_rate annual_return tax_rate I Mi : R)
    (search_cap_years : Z) :
  -1 < annual_return ->
  outcome (solve_swp A_today Tw inflation_rate annual_return tax_rate
             None (Some Mi) (Some I) search_cap_years) =
  match outcome (search_Ti A_today Tw inflation_rate
                   (spec_monthly_rate annual_return) tax_rate I Mi
                   search_cap_years 0) with
  | Ok Ti' =>
      bind (_corpus_after_tax I Mi (spec_monthly_rate annual_return)
              (py_round (Ti' * 12)) tax_rate)
           (fun C => Ok {| res_I := I; res_Mi := Mi; res_Ti := Ti';
                           corpus_at_retirement := C |})
  | Raise e => Raise e
  end.
Proof.
  intros Ha. unfold solve_swp. cbn [count_None filter length Nat.eqb negb].
  rewrite gross_monthly_ok by exact Ha.
  rewrite outcome_tbind. cbn [call outcome snd].
  rewrite !outcome_tbind.
  destruct (outcome (search_Ti _ _ _ _ _ _ _ _ _)) as [Ti' | e];
    [| reflexivity].
  cbn [ret outcome snd]. rewrite outcome_tbind. cbn [call outcome snd].
  destruct (_corpus_after_tax _ _ _ _ _); reflexivity.
Qed.

(** *** The formulas at zero rates *)

Lemma spec_future_value_zero_rate (L M : R) (n : nat) :
  spec_future_value L M 0 n = L + M * INR n.
Proof.
  unfold spec_future_value. rewrite Rabs_R0.
  destruct (Rgt_dec 0 1e-12) as [H | _]; [lra |].
  rewrite Rplus_0_r, pow1. ring.
Qed.

Lemma spec_post_tax_corpus_zero_rate (L M : R) (n : nat) (tax : R) :
  spec_post_tax_corpus L M 0 n tax = L + M * INR n.
Proof.
  unfold spec_post_tax_corpus. rewrite spec_future_value_zero_rate.
  replace (L + M * INR n - (L + M * INR n)) with 0 by ring.
  rewrite Rmax_left by lra. ring.
Qed.

Lemma spec_required_corpus_zero_rates (A_today Ti Tw : R) :
  spec_required_corpus A_today Ti Tw 0 0 = A_today * IZR (py_round (Tw * 12)).
Proof.
  unfold spec_required_corpus. rewrite Rplus_0_r, !Rpower_one.
  replace (0 - (1 - 1)) with 0 by ring. rewrite Rabs_R0.
  destruct (Rlt_dec 0 1e-12) as [_ | H]; [| lra].
  field.
Qed.

(** ** The closed formulas of the engines *)

(** C8: whenever the power [(1 + r) ** n] returns [p], the future-value
    engine returns [L * p + M * (p - 1) / r] when [|r|] exceeds 1e-12 and
    [L * p + M * n] otherwise, where [p] is [(1 + r) ^ n] for a month count
    [n >= 0]; at the rate 0 the result is exactly [L + M * n], and 0 is the
    monthly rate the conversion returns for [annual_return = 0]. *)
Theorem fv_before_tax_formula (L M r : R) (n : Z) (p : R) :
  py_pow (1 + r) (IZR n) = Ok p ->
  (Rabs r > 1e-12 ->
   _fv_before_tax L M r n = Ok (L * p + M * (p - 1) / r))
  /\ (~ Rabs r > 1e-12 ->
      _fv_before_tax L M r n = Ok (L * p + M * IZR n))
  /\ ((0 <= n)%Z -> p = (1 + r) ^ Z.to_nat n)
  /\ (r = 0 -> _fv_before_tax L M r n = Ok (L + M * IZR n))
  /\ _gross_monthly 0 = Ok 0.
Proof.
  intros Hp. unfold _fv_before_tax. rewrite Hp. cbn [bind].
  split; [| split; [| split; [| split]]].
  - intros Hr. destruct (Rgt_dec (Rabs r) 1e-12); [| contradiction].
    cbn [bind].
    rewrite py_div_ok by (apply (Rabs_gt_nonzero r 1e-12); lra).
    cbn [bind]. reflexivity.
  - intros Hr. destruct (Rgt_dec (Rabs r) 1e-12); [contradiction |].
    reflexivity.
  - intros Hn. rewrite py_pow_nat in Hp by exact Hn. now injection Hp.
  - intros ->. rewrite Rabs_R0.
    destruct (Rgt_dec 0 1e-12) as [H | _]; [lra |]. cbn [bind].
    rewrite Rplus_0_r, py_pow_pos, Rpower_one in Hp by lra.
    injection Hp as <-. f_equal. ring.
  - rewrite gross_monthly_ok by lra. now rewrite spec_monthly_rate_0.
Qed.

Lemma fv_before_tax_formula_witness :
  py_pow (1 + 1 / 100) (IZR 12) = Ok ((1 + 1 / 100) ^ 12)
  /\ _fv_before_tax 1000 100 (1 / 100) 12
     = Ok (1000 * (1 + 1 / 100) ^ 12
           + 100 * ((1 + 1 / 100) ^ 12 - 1) / (1 / 100)).
Proof.
  assert (Hp : py_pow (1 + 1 / 100) (IZR 12) = Ok ((1 + 1 / 100) ^ 12)).
  { now rewrite py_pow_nat by lia. }
  split; [exact Hp |].
  apply (fv_before_tax_formula 1000 100 (1 / 100) 12 _ Hp).
  rewrite Rabs_pos_eq; lra.
Defined.





(** ** Which exceptions can be raised *)

Lemma raises_within_Ok {A : Type} (P : exn -> Prop) (a : A) :
  raises_within P (Ok a).
Proof. intros e H. discriminate H. Qed.

Lemma raises_within_bind {A B : Type} (P : exn -> Prop)
    (m : result A) (k : A -> result B) :
  raises_within P m -> (forall a, raises_within P (k a)) ->
  raises_within P (bind m k).
Proof.
  intros Hm Hk e. destruct m as [a | e']; cbn.
  - apply Hk.
  - intros H. inversion H; subst. now apply Hm.
Qed.

Lemma raises_within_weaken {A : Type} (P Q : exn -> Prop) (m : result A) :
  (forall e, P e -> Q e) -> raises_within P m -> raises_within Q m.
Proof. intros HPQ Hm e He. apply HPQ, Hm, He. Qed.

Lemma py_div_raises (x y : R) : raises_within arith_exn (py_div x y).
Proof.
  intros e. unfold py_div. destruct (Req_dec_T y 0); intros H; inversion H.
  now left.
Qed.

Lemma py_pow_raises (x y : R) : raises_within arith_exn (py_pow x y).
Proof.
  intros e. unfold py_pow.
  repeat destruct (Rlt_dec _ _); repeat destruct (Req_dec_T _ _);
    intros H; inversion H; (now left) || (now right).
Qed.

Create HintDb raises.
#[local] Hint Resolve raises_within_Ok py_div_raises py_pow_raises : raises.

Lemma gross_monthly_raises (a : R) : raises_within arith_exn (_gross_monthly a).
Proof. unfold _gross_monthly. apply raises_within_bind; auto with raises. Qed.

Lemma fv_before_tax_raises (L M r : R) (n : Z) :
  raises_within arith_exn (_fv_before_tax L M r n).
Proof.
  unfold _fv_before_tax.
  apply raises_within_bind; [auto with raises | intros p].
  apply raises_within_bind; [| auto with raises].
  destruct (Rgt_dec _ _); [| auto with raises].
  apply raises_within_bind; auto with raises.
Qed.

Lemma corpus_after_tax_raises (L M r : R) (n : Z) (tax : R) :
  raises_within arith_exn (_corpus_after_tax L M r n tax).
Proof.
  unfold _corpus_after_tax.
  apply raises_within_bind; [apply fv_before_tax_raises | auto with raises].
Qed.

Lemma corpus_needed_raises (A_today Ti Tw infl r_month : R) :
  raises_within arith_exn (_corpus_needed_for_swp A_today Ti Tw infl r_month).
Proof.
  unfold _corpus_needed_for_swp.
  apply raises_within_bind; [auto with raises | intros p].
  apply raises_within_bind; [auto with raises | intros w].
  destruct (Rlt_dec _ _); [auto with raises |].
  apply raises_within_bind; [auto with raises | intros k].
  apply raises_within_bind; auto with raises.
Qed.

#[local] Hint Resolve gross_monthly_raises fv_before_tax_raises
  corpus_after_tax_raises corpus_needed_raises : raises.

(** The traced counterparts. *)

Lemma raises_within_tbind {A B : Type} (P : exn -> Prop)
    (m : Traced A) (k : A -> Traced B) :
  raises_within P (outcome m) -> (forall a, raises_within P (outcome (k a))) ->
  raises_within P (outcome (tbind m k)).
Proof.
  intros Hm Hk e. rewrite outcome_tbind.
  destruct (outcome m) as [a | e'].
  - apply Hk.
  - intros H. inversion H; subst. now apply Hm.
Qed.

Lemma search_Ti_raises (A_today Tw inflation_rate r tax_rate I Mi : R)
    (search_cap_years months : Z) :
  raises_within (fun e => e = RuntimeError \/ arith_exn e)
    (outcome (search_Ti A_today Tw inflation_rate r tax_rate I Mi
                search_cap_years months)).
Proof.
  remember (Z.to_nat (search_cap_years * 12 + 1 - months)) as d eqn:Hd.
  revert months Hd. induction d as [| d IH]; intros months Hd.
  - rewrite search_Ti_exit by lia. intros e H. inversion H. now left.
  - rewrite search_Ti_enter by lia.
    apply raises_within_tbind; [apply raises_within_Ok | intros _].
    apply raises_within_tbind.
    { eapply raises_within_weaken; [| apply corpus_needed_raises]. now right. }
    intros Cneed. apply raises_within_tbind.
    { eapply raises_within_weaken; [| apply corpus_after_tax_raises]. now right. }
    intros Chave. destruct (Rge_dec _ _).
    + apply raises_within_Ok.
    + apply IH. lia.
Qed.

Ltac raises_step :=
  first
    [ apply raises_within_Ok
    | apply search_Ti_raises
    | progress cbn [outcome snd call lift ret num traise]
    | apply raises_within_tbind; [| intros ?]
    | match goal with
      | |- raises_within _ (if ?c then _ else _) => destruct c
      | |- raises_within _ (outcome (let '(_, _) := ?p in _)) => destruct p
      end
    | (eapply raises_within_weaken; [| solve [auto with raises]];
       intros ? ?; now right) ].

(** With exactly one value unset, only the goal-unreachable error and the
    exceptions of the arithmetic can come out of the solver. *)
Lemma solve_swp_raises (A_today Tw inflation_rate annual_return tax_rate : R)
    (Ti Mi I : option R) (search_cap_years : Z) :
  count_None [Ti; Mi; I] = 1%nat ->
  raises_within (fun e => e = RuntimeError \/ arith_exn e)
    (outcome (solve_swp A_today Tw inflation_rate annual_return tax_rate
                Ti Mi I search_cap_years)).
Proof.
  intros Hc. unfold solve_swp. rewrite Hc. cbn [Nat.eqb negb].
  destruct Ti as [Ti' |], Mi as [Mi' |], I as [I' |]; try discriminate Hc;
    repeat raises_step.
Qed.

(** ** Input validation *)

(** C9: [solve_swp] raises the invalid-input error if and only if the number
    of unset values among [(Ti, Mi, I)] is not exactly 1; and when that
    number is not 1 the run consists of that raise alone: its trace is
    empty (no rate conversion, no corpus evaluation, no search iteration)
    and no result is produced. *)
Theorem solve_swp_invalid_input
    (A_today Tw inflation_rate annual_return tax_rate : R)
    (Ti Mi I : option R) (search_cap_years : Z) :
  (outcome (solve_swp A_today Tw inflation_rate annual_return tax_rate
              Ti Mi I search_cap_years) = Raise ValueError
   <-> count_None [Ti; Mi; I] <> 1%nat)
  /\ (count_None [Ti; Mi; I] <> 1%nat ->
      solve_swp A_today Tw inflation_rate annual_return tax_rate
        Ti Mi I search_cap_years = ([], Raise ValueError)).
Proof.
  assert (Hbad : count_None [Ti; Mi; I] <> 1%nat ->
                 solve_swp A_today Tw inflation_rate annual_return tax_rate
                   Ti Mi I search_cap_years = ([], Raise ValueError)).
  { intros Hc. unfold solve_swp.
    apply Nat.eqb_neq in Hc. rewrite Hc. reflexivity. }
  split; [split |]; [| intros Hc; now rewrite Hbad | exact Hbad].
  intros Hraise Hc.
  destruct (solve_swp_raises A_today Tw inflation_rate annual_return tax_rate
              Ti Mi I search_cap_years Hc ValueError Hraise)
    as [H | [H | H]]; discriminate H.
Qed.

Lemma solve_swp_invalid_input_witness :
  solve_swp 100000 10 (7 / 100) (1 / 8) (1 / 8) None None (Some 0) 100
  = ([], Raise ValueError)
  /\ solve_swp 100000 10 (7 / 100) (1 / 8) (1 / 8) (Some 1) (Some 2) (Some 3) 100
     = ([], Raise ValueError).
Proof.
  split.
  - apply (solve_swp_invalid_input 100000 10 (7 / 100) (1 / 8) (1 / 8)
             None None (Some 0) 100).
    cbn. lia.
  - apply (solve_swp_invalid_input 100000 10 (7 / 100) (1 / 8) (1 / 8)
             (Some 1) (Some 2) (Some 3) 100).
    cbn. lia.
Defined.

(** ** Termination and cost *)

Lemma iterations_app (t1 t2 : list event) :
  iterations (t1 ++ t2) = (iterations t1 + iterations t2)%nat.
Proof. unfold iterations. now rewrite filter_app, length_app. Qed.

Lemma trace_tbind_le {A B : Type} (m : Traced A) (k : A -> Traced B) (b1 b2 : nat) :
  (iterations (trace m) <= b1)%nat ->
  (forall a, (iterations (trace (k a)) <= b2)%nat) ->
  (iterations (trace (tbind m k)) <= b1 + b2)%nat.
Proof.
  intros Hm Hk. unfold trace in *.
  destruct m as [t [a | e]]; cbn [tbind fst] in *.
  - specialize (Hk a). destruct (k a) as [t' o]. cbn [fst] in *.
    rewrite iterations_app. lia.
  - lia.
Qed.

Lemma search_Ti_iterations (A_today Tw inflation_rate r tax_rate I Mi : R)
    (search_cap_years months : Z) :
  (iterations (trace (search_Ti A_today Tw inflation_rate r tax_rate I Mi
                        search_cap_years months))
   <= Z.to_nat (search_cap_years * 12 + 1 - months))%nat.
Proof.
  remember (Z.to_nat (search_cap_years * 12 + 1 - months)) as d eqn:Hd.
  revert months Hd. induction d as [| d IH]; intros months Hd.
  - rewrite search_Ti_exit by lia. cbn. lia.
  - rewrite search_Ti_enter by lia.
    change (S d) with (1 + (0 + (0 + d)))%nat.
    apply trace_tbind_le; [cbn; lia | intros _].
    apply trace_tbind_le; [cbn; lia | intros Cneed].
    apply trace_tbind_le; [cbn; lia | intros Chave].
    destruct (Rge_dec _ _).
    + cbn. lia.
    + apply IH. lia.
Qed.

Ltac cost_step :=
  first
    [ progress cbn [trace fst call lift ret num traise iterations filter
                    is_iteration length]
    | match goal with
      | |- (iterations (trace (tbind _ _)) <= 0)%nat =>
          change 0%nat with (0 + 0)%nat; apply trace_tbind_le; [| intros ?]
      | |- (iterations (trace (let '(_, _) := ?p in _)) <= _)%nat => destruct p
      | |- (iterations (trace (num ?x)) <= _)%nat => destruct x
      end
    | lia ].

(** C10: [solve_swp] is a total function, so every call ends with a result
    or an exception.  Its only loop is the unknown-[Ti] search, of which a
    run performs at most [12 * search_cap_years + 1] iterations; when [I] or
    [Mi] is unset no iteration is performed at all. *)
Theorem solve_swp_terminates
    (A_today Tw inflation_rate annual_return tax_rate : R)
    (Ti Mi I : option R) (search_cap_years : Z) :
  exists (t : list event) (o : result swp_result),
    solve_swp A_today Tw inflation_rate annual_return tax_rate
      Ti Mi I search_cap_years = (t, o)
    /\ (iterations t <= Z.to_nat (12 * search_cap_years + 1))%nat
    /\ (I = None \/ Mi = None -> iterations t = 0%nat).
Proof.
  destruct (solve_swp A_today Tw inflation_rate annual_return tax_rate
              Ti Mi I search_cap_years) as [t o] eqn:E.
  exists t, o. split; [reflexivity |].
  change t with (trace (t, o)). rewrite <- E. clear E t o.
  assert (Hclosed : I = None \/ Mi = None ->
            (iterations (trace (solve_swp A_today Tw inflation_rate
               annual_return tax_rate Ti Mi I search_cap_years)) <= 0)%nat).
  { intros Hunset. unfold solve_swp.
    destruct (negb _); [cbn; lia |].
    destruct I as [I' |], Mi as [Mi' |];
      try (destruct Hunset; discriminate); repeat cost_step. }
  split; [| intros H; specialize (Hclosed H); lia].
  destruct I as [I' |]; [| specialize (Hclosed (or_introl eq_refl)); lia].
  destruct Mi as [Mi' |]; [| specialize (Hclosed (or_intror eq_refl)); lia].
  unfold solve_swp. destruct (negb _); [cbn; lia |].
  replace (Z.to_nat (12 * search_cap_years + 1))
    with (0 + ((Z.to_nat (search_cap_years * 12 + 1 - 0) + 0) + 0))%nat by lia.
  apply trace_tbind_le; [cbn; lia | intros r].
  apply trace_tbind_le.
  - apply trace_tbind_le; [apply search_Ti_iterations | intros ?; cbn; lia].
  - intros [[I0 Mi0] Ti0].
    change 0%nat with (0 + 0)%nat.
    apply trace_tbind_le; [cbn; lia | intros ?; cbn; lia].
Qed.

(** ** The closed-form branches *)


Lemma spec_A_L_pos (tax r : R) (n : nat) :
  -1 < r -> 0 <= tax <= 1 -> 0 < spec_A_L tax r n.
Proof.
  intros Hr Ht. unfold spec_A_L.
  assert (Hg : 0 < (1 + r) ^ n) by (apply pow_lt; lra).
  destruct (Req_dec tax 1) as [-> | Hne]; [lra |].
  assert (0 < (1 - tax) * (1 + r) ^ n) by (apply Rmult_lt_0_compat; lra).
  lra.
Qed.

Lemma spec_annuity_pos (r : R) (n : nat) :
  -1 < r -> (1 <= n)%nat -> 0 < spec_annuity r n.
Proof.
  intros Hr Hn. unfold spec_annuity.
  destruct (Rgt_dec (Rabs r) 1e-12) as [Habs | _].
  - assert (Hr0 : r <> 0) by (apply (Rabs_gt_nonzero r 1e-12); lra).
    destruct (Rlt_dec 0 r) as [Hpos | Hneg].
    + apply Rdiv_lt_0_compat; [| exact Hpos].
      assert (1 < (1 + r) ^ n) by (apply Rlt_pow_R1; [lra | lia]).
      lra.
    + assert (Hr' : r < 0) by lra.
      assert (Hlt : (1 + r) ^ n < 1).
      { destruct n as [| k]; [lia |].
        apply Rle_lt_trans with ((1 + r) * 1); [| lra].
        simpl. apply Rmult_le_compat_l; [lra |].
        apply Rle_trans with (1 ^ k); [apply pow_incr; lra |].
        rewrite pow1. lra. }
      replace (((1 + r) ^ n - 1) / r) with ((1 - (1 + r) ^ n) / (- r))
        by (field; exact Hr0).
      apply Rdiv_lt_0_compat; lra.
  - apply lt_0_INR. lia.
Qed.

Lemma spec_A_M_pos (tax r : R) (n : nat) :
  -1 < r -> 0 <= tax <= 1 -> (1 <= n)%nat -> 0 < spec_A_M tax r n.
Proof.
  intros Hr Ht Hn. unfold spec_A_M.
  pose proof (spec_annuity_pos r n Hr Hn) as Ha.
  assert (Hn' : 0 < INR n) by (apply lt_0_INR; lia).
  destruct (Req_dec tax 1) as [-> | Hne]; [lra |].
  assert (0 < (1 - tax) * spec_annuity r n) by (apply Rmult_lt_0_compat; lra).
  assert (0 <= tax * INR n) by (apply Rmult_le_pos; lra).
  lra.
Qed.

Lemma spec_A_M_zero (tax r : R) : spec_A_M tax r 0 = 0.
Proof.
  unfold spec_A_M, spec_annuity. simpl.
  destruct (Rgt_dec (Rabs r) 1e-12); unfold Rdiv; ring.
Qed.

(** The growth factor and the annuity factor as the solver computes them. *)
Lemma solver_annuity_ok (r : R) (n : Z) :
  (0 <= n)%Z ->
  (if Rgt_dec (Rabs r) 1e-12
   then py_div ((1 + r) ^ Z.to_nat n - 1) r else Ok (IZR n))
  = Ok (spec_annuity r (Z.to_nat n)).
Proof.
  intros Hn. unfold spec_annuity.
  destruct (Rgt_dec (Rabs r) 1e-12) as [Habs | _].
  - apply py_div_ok. apply (Rabs_gt_nonzero r 1e-12); lra.
  - now rewrite INR_to_nat.
Qed.

Ltac run_step :=
  rewrite outcome_tbind; cbn [call lift ret num traise outcome snd bind].

Section ClosedForm.
Variables (A_today Tw inflation_rate annual_return tax_rate Ti : R).
Variable search_cap_years : Z.
Hypothesis Hinfl : -1 < inflation_rate.
Hypothesis Hann : -1 < annual_return.

(** The unknown-[I] branch: [I = (Cn - A_M * Mi) / A_L]. *)
Lemma solve_swp_unknown_I_outcome (Mi : R) :
  0 <= tax_rate <= 1 -> (0 <= py_round (Ti * 12))%Z ->
  let r := spec_monthly_rate annual_return in
  let n := Z.to_nat (py_round (Ti * 12)) in
  let Cn := spec_required_corpus A_today Ti Tw inflation_rate r in
  let I' := (Cn - spec_A_M tax_rate r n * Mi) / spec_A_L tax_rate r n in
  outcome (solve_swp A_today Tw inflation_rate annual_return tax_rate
             (Some Ti) (Some Mi) None search_cap_years)
  = Ok {| res_I := I'; res_Mi := Mi; res_Ti := Ti;
          corpus_at_retirement := spec_post_tax_corpus I' Mi r n tax_rate |}.
Proof.
  intros Ht Hn r n Cn I'. unfold solve_swp.
  cbn [count_None filter length Nat.eqb negb].
  rewrite gross_monthly_ok by exact Hann. fold r.
  do 3 run_step.
  rewrite corpus_needed_ok by (exact Hinfl || apply spec_monthly_rate_gt).
  fold Cn. do 2 run_step.
  rewrite py_pow_nat by exact Hn. run_step.
  rewrite solver_annuity_ok by exact Hn. do 2 run_step.
  rewrite <- (INR_to_nat (py_round (Ti * 12))) by exact Hn. fold n.
  fold (spec_A_L tax_rate r n) (spec_A_M tax_rate r n).
  rewrite py_div_ok
    by (apply Rgt_not_eq, spec_A_L_pos; [apply spec_monthly_rate_gt | exact Ht]).
  fold I'. run_step.
  rewrite corpus_after_tax_ok by exact Hn. reflexivity.
Qed.

(** The unknown-[Mi] branch: [Mi = (Cn - A_L * I) / A_M], for at least one
    month of accumulation. *)
Lemma solve_swp_unknown_Mi_outcome (I : R) :
  0 <= tax_rate <= 1 -> (1 <= py_round (Ti * 12))%Z ->
  let r := spec_monthly_rate annual_return in
  let n := Z.to_nat (py_round (Ti * 12)) in
  let Cn := spec_required_corpus A_today Ti Tw inflation_rate r in
  let Mi' := (Cn - spec_A_L tax_rate r n * I) / spec_A_M tax_rate r n in
  outcome (solve_swp A_today Tw inflation_rate annual_return tax_rate
             (Some Ti) None (Some I) search_cap_years)
  = Ok {| res_I := I; res_Mi := Mi'; res_Ti := Ti;
          corpus_at_retirement := spec_post_tax_corpus I Mi' r n tax_rate |}.
Proof.
  intros Ht Hn r n Cn Mi'. unfold solve_swp.
  cbn [count_None filter length Nat.eqb negb].
  rewrite gross_monthly_ok by exact Hann. fold r.
  do 3 run_step.
  rewrite corpus_needed_ok by (exact Hinfl || apply spec_monthly_rate_gt).
  fold Cn. do 2 run_step.
  rewrite py_pow_nat by lia. run_step.
  rewrite solver_annuity_ok by lia. run_step.
  rewrite <- (INR_to_nat (py_round (Ti * 12))) by lia. fold n.
  fold (spec_A_L tax_rate r n) (spec_A_M tax_rate r n).
  rewrite py_div_ok
    by (apply Rgt_not_eq, spec_A_M_pos;
        [apply spec_monthly_rate_gt | exact Ht | unfold n; lia]).
  fold Mi'. run_step.
  rewrite corpus_after_tax_ok by lia. reflexivity.
Qed.

(** With no whole month of accumulation [A_M] is 0 and the unknown-[Mi]
    branch divides by it. *)
Lemma solve_swp_unknown_Mi_zero_months (I : R) :
  py_round (Ti * 12) = 0%Z ->
  solve_swp A_today Tw inflation_rate annual_return tax_rate
    (Some Ti) None (Some I) search_cap_years
  = ([EvGrossMonthly; EvCorpusNeeded], Raise ZeroDivisionError).
Proof.
  intros Hn. unfold solve_swp.
  cbn [count_None filter length Nat.eqb negb].
  rewrite gross_monthly_ok by exact Hann.
  set (r := spec_monthly_rate annual_return).
  cbn [tbind call lift num ret app].
  rewrite corpus_needed_ok by (exact Hinfl || apply spec_monthly_rate_gt).
  rewrite Hn, py_pow_nat by lia.
  cbn [tbind call lift num ret app].
  rewrite (solver_annuity_ok r 0) by lia.
  assert (H0 : (1 - tax_rate) * spec_annuity r (Z.to_nat 0) + tax_rate * 0 = 0).
  { transitivity (spec_A_M tax_rate r 0); [reflexivity | apply spec_A_M_zero]. }
  rewrite H0, py_div_zero. reflexivity.
Qed.

End ClosedForm.

Lemma py_round_zero : py_round (0 * 12) = 0%Z.
Proof. replace (0 * 12) with (IZR 0) by lra. apply py_round_IZR. Qed.

(** C3: the claim that every arithmetic operation is defined on the
    documented domain fails in the unknown-[Mi] branch: with [Ti = 0] (an
    admissible accumulation period) [n = 0], so [A_M = 0], and the division
    [(Cn - A_L * I) / A_M] raises [ZeroDivisionError], after the rate
    conversion and the corpus requirement have been computed. *)
Theorem solve_swp_unknown_Mi_at_Ti_zero :
  solve_swp 100000 10 (7 / 100) (1 / 8) (1 / 8) (Some 0) None (Some 1000000) 100
  = ([EvGrossMonthly; EvCorpusNeeded], Raise ZeroDivisionError).
Proof.
  apply solve_swp_unknown_Mi_zero_months; try lra.
  apply py_round_zero.
Qed.

(** ** Round trip between the closed-form branches *)


(** ** The recomputed corpus against the required corpus *)







(** *** An overfunded plan *)







(** ** Monotonicity *)

Lemma spec_required_corpus_factor (A_today Ti Tw infl r_month : R) :
  spec_required_corpus A_today Ti Tw infl r_month
  = A_today * Rpower (1 + infl) Ti
    * spec_pv_factor (Rpower (1 + infl) (1 / 12) - 1) r_month
        (py_round (Tw * 12)).
Proof.
  unfold spec_required_corpus, spec_pv_factor.
  destruct (Rlt_dec _ _); unfold Rdiv; ring.
Qed.

Lemma pow_lt_decr (k : R) (m n : nat) :
  0 < k < 1 -> (m < n)%nat -> k ^ n < k ^ m.
Proof.
  intros Hk Hmn.
  replace n with (m + (n - m))%nat by lia. rewrite pow_add.
  assert (Hm : 0 < k ^ m) by (apply pow_lt; lra).
  assert (Hd : k ^ (n - m) < 1).
  { apply (pow_lt_1_compat k (n - m)); [lra | lia]. }
  rewrite <- (Rmult_1_r (k ^ m)) at 2.
  apply Rmult_lt_compat_l; assumption.
Qed.

Lemma spec_pv_factor_zero (g r : R) : spec_pv_factor g r 0 = 0.
Proof.
  unfold spec_pv_factor. destruct (Rlt_dec _ _); simpl; unfold Rdiv; ring.
Qed.

Lemma spec_pv_factor_lt (g r : R) (M1 M2 : Z) :
  -1 < g -> -1 < r -> (0 <= M1 < M2)%Z ->
  spec_pv_factor g r M1 < spec_pv_factor g r M2.
Proof.
  intros Hg Hr HM. unfold spec_pv_factor.
  destruct (Rlt_dec (Rabs (r - g)) 1e-12) as [_ | Hne].
  - apply Rmult_lt_compat_r; [apply Rinv_0_lt_compat; lra |].
    apply IZR_lt. lia.
  - assert (Hrg : r <> g).
    { intros ->. apply Hne. replace (g - g) with 0 by ring.
      rewrite Rabs_R0. lra. }
    rewrite !powerRZ_nat by lia.
    set (k := (1 + g) / (1 + r)).
    assert (Hk : 0 < k) by (apply Rdiv_lt_0_compat; lra).
    assert (Hlt : (Z.to_nat M1 < Z.to_nat M2)%nat) by lia.
    destruct (Rlt_dec g r) as [Hgr | Hgr].
    + assert (Hk1 : k < 1).
      { unfold k. apply Rmult_lt_reg_r with (1 + r); [lra |].
        replace ((1 + g) / (1 + r) * (1 + r)) with (1 + g) by (field; lra).
        lra. }
      pose proof (pow_lt_decr k _ _ (conj Hk Hk1) Hlt).
      apply Rmult_lt_compat_r; [apply Rinv_0_lt_compat; lra | lra].
    + assert (Hk1 : 1 < k).
      { unfold k. apply Rmult_lt_reg_r with (1 + r); [lra |].
        replace ((1 + g) / (1 + r) * (1 + r)) with (1 + g) by (field; lra).
        lra. }
      pose proof (Rlt_pow k _ _ Hk1 Hlt).
      replace ((1 - k ^ Z.to_nat M1) / (r - g))
        with ((k ^ Z.to_nat M1 - 1) / (g - r)) by (field; lra).
      replace ((1 - k ^ Z.to_nat M2) / (r - g))
        with ((k ^ Z.to_nat M2 - 1) / (g - r)) by (field; lra).
      apply Rmult_lt_compat_r; [apply Rinv_0_lt_compat; lra | lra].
Qed.


Lemma spec_pv_factor_le (g r : R) (M1 M2 : Z) :
  -1 < g -> -1 < r -> (0 <= M1 <= M2)%Z ->
  spec_pv_factor g r M1 <= spec_pv_factor g r M2.
Proof.
  intros Hg Hr HM. destruct (Z.eq_dec M1 M2) as [-> | Hne]; [lra |].
  left. apply spec_pv_factor_lt; (assumption || lia).
Qed.

Lemma monthly_growth_gt (infl : R) : -1 < Rpower (1 + infl) (1 / 12) - 1.
Proof. pose proof (Rpower_pos (1 + infl) (1 / 12)). lra. Qed.







(** ** Where the arithmetic is defined *)

Lemma search_Ti_outcome_cases
    (A_today Tw inflation_rate r tax_rate I Mi : R) (search_cap_years k : Z) :
  -1 < inflation_rate -> -1 < r -> (0 <= k)%Z ->
  outcome (search_Ti A_today Tw inflation_rate r tax_rate I Mi
             search_cap_years k) = Raise RuntimeError
  \/ exists m : Z,
       (k <= m <= search_cap_years * 12)%Z
       /\ outcome (search_Ti A_today Tw inflation_rate r tax_rate I Mi
                     search_cap_years k) = Ok (IZR m / 12).
Proof.
  intros Hi Hr.
  remember (Z.to_nat (search_cap_years * 12 + 1 - k)) as d eqn:Hd.
  revert k Hd. induction d as [| d IH]; intros k Hd Hk.
  - left. rewrite search_Ti_exit by lia. reflexivity.
  - rewrite search_Ti_step by (assumption || lia).
    destruct (Rge_dec _ _) as [Hge | _].
    + right. exists k. split; [lia | reflexivity].
    + destruct (IH (k + 1)%Z ltac:(lia) ltac:(lia)) as [Hraise | (m & Hm & Hok)];
        destruct (search_Ti _ _ _ _ _ _ _ _ (k + 1)) as [t o]; cbn in *.
      * now left.
      * right. exists m. split; [lia | exact Hok].
Qed.

(** Away from the unknown-[Mi] branch at zero months, a call with exactly
    one value unset returns a result or raises the goal-unreachable error. *)
Lemma solve_swp_defined
    (A_today Tw inflation_rate annual_return tax_rate : R)
    (Ti Mi I : option R) (search_cap_years : Z) :
  -1 < inflation_rate -> -1 < annual_return -> 0 <= tax_rate <= 1 ->
  count_None [Ti; Mi; I] = 1%nat ->
  (forall Ti' : R, Ti = Some Ti' -> 0 <= Ti') ->
  (forall Ti' : R, Ti = Some Ti' -> Mi = None -> (1 <= py_round (Ti' * 12))%Z) ->
  (exists res : swp_result,
      outcome (solve_swp A_today Tw inflation_rate annual_return tax_rate
                 Ti Mi I search_cap_years) = Ok res)
  \/ outcome (solve_swp A_today Tw inflation_rate annual_return tax_rate
                Ti Mi I search_cap_years) = Raise RuntimeError.
Proof.
  intros Hi Ha Ht Hc HTi HMi.
  destruct Ti as [Ti' |], Mi as [Mi' |], I as [I' |]; try discriminate Hc.
  - left. eexists. apply solve_swp_unknown_I_outcome; try assumption.
    apply py_round_nonneg. specialize (HTi Ti' eq_refl). lra.
  - left. eexists. apply solve_swp_unknown_Mi_outcome; try assumption.
    now apply HMi.
  - rewrite solve_swp_Ti_outcome by exact Ha.
    destruct (search_Ti_outcome_cases A_today Tw inflation_rate
                (spec_monthly_rate annual_return) tax_rate I' Mi'
                search_cap_years 0 Hi (spec_monthly_rate_gt annual_return)
                ltac:(lia)) as [Hraise | (m & Hm & Hok)].
    + right. now rewrite Hraise.
    + left. rewrite Hok, py_round_months, corpus_after_tax_ok by lia.
      eexists. reflexivity.
Qed.

(** * Further properties of [planner_core.py] *)

(** ** The rate conversion *)

Lemma pow_lt_strict (x y : R) (n : nat) :
  0 < x < y -> (1 <= n)%nat -> x ^ n < y ^ n.
Proof.
  intros Hxy Hn. rewrite <- !Rpower_pow by lra.
  apply Rlt_Rpower_l; [apply lt_0_INR; lia | exact Hxy].
Qed.

Lemma pow12_inj (x y : R) : 0 < x -> 0 < y -> x ^ 12 = y ^ 12 -> x = y.
Proof.
  intros Hx Hy H.
  destruct (Rtotal_order x y) as [Hlt | [Heq | Hgt]]; [| exact Heq |].
  - pose proof (pow_lt_strict x y 12 (conj Hx Hlt) ltac:(lia)). lra.
  - pose proof (pow_lt_strict y x 12 (conj Hy Hgt) ltac:(lia)). lra.
Qed.

(** X1: for an annual rate above -1, [_gross_monthly] returns the monthly
    rate that compounds to it over 12 months, [(1 + r) ^ 12 = 1 + r_annual],
    and it is the only rate above -1 that does. *)
Theorem gross_monthly_compounds (r_annual : R) :
  -1 < r_annual ->
  exists r : R,
    _gross_monthly r_annual = Ok r
    /\ -1 < r
    /\ (1 + r) ^ 12 = 1 + r_annual
    /\ (forall r' : R, -1 < r' -> (1 + r') ^ 12 = 1 + r_annual -> r' = r).
Proof.
  intros Ha. exists (spec_monthly_rate r_annual).
  assert (Hpow : (1 + spec_monthly_rate r_annual) ^ 12 = 1 + r_annual).
  { unfold spec_monthly_rate.
    replace (1 + (Rpower (1 + r_annual) (1 / 12) - 1))
      with (Rpower (1 + r_annual) (1 / 12)) by ring.
    rewrite <- Rpower_pow by apply Rpower_pos.
    rewrite Rpower_mult.
    replace (1 / 12 * INR 12) with 1 by (simpl; field).
    apply Rpower_1. lra. }
  split; [now apply gross_monthly_ok |].
  split; [apply spec_monthly_rate_gt |].
  split; [exact Hpow |].
  intros r' Hr' H'.
  pose proof (spec_monthly_rate_gt r_annual) as Hr.
  assert (1 + r' = 1 + spec_monthly_rate r_annual); [| lra].
  apply pow12_inj; [lra | lra | congruence].
Qed.

Lemma gross_monthly_compounds_witness :
  -1 < (101 / 100) ^ 12 - 1
  /\ _gross_monthly ((101 / 100) ^ 12 - 1) = Ok (1 / 100).
Proof.
  assert (Ha : -1 < (101 / 100) ^ 12 - 1).
  { assert (0 < (101 / 100) ^ 12) by (apply pow_lt; lra). lra. }
  split; [exact Ha |].
  destruct (gross_monthly_compounds ((101 / 100) ^ 12 - 1) Ha)
    as (r & Hok & _ & _ & Huniq).
  rewrite Hok. f_equal. symmetry. apply Huniq; [lra |].
  replace (1 + 1 / 100) with (101 / 100) by lra. ring.
Defined.

(** ** Tax never adds, and never reaches the contributions *)



(** ** What a returned result holds *)

Lemma outcome_tbind_Ok {A B : Type} (m : Traced A) (k : A -> Traced B) (b : B) :
  outcome (tbind m k) = Ok b ->
  exists a : A, outcome m = Ok a /\ outcome (k a) = Ok b.
Proof.
  rewrite outcome_tbind. destruct (outcome m) as [a | e]; [| discriminate].
  intros H. now exists a.
Qed.

Ltac invert_run H :=
  repeat match type of H with
         | outcome (tbind _ _) = Ok _ =>
             let a := fresh "a" in
             let Ha := fresh "Ha" in
             apply outcome_tbind_Ok in H; destruct H as (a & Ha & H);
             cbn [outcome snd call lift ret num traise] in Ha;
             try discriminate Ha; try (injection Ha as Ha; subst a)
         end.

(** X5: whatever branch produced it, a returned result carries the given
    values unchanged, and its [corpus_at_retirement] is the post-tax corpus
    engine applied to the returned triple at [round (Ti * 12)] months and
    the converted monthly rate. *)
Theorem solve_swp_result_consistent
    (A_today Tw inflation_rate annual_return tax_rate : R)
    (Ti Mi I : option R) (search_cap_years : Z) (res : swp_result) :
  outcome (solve_swp A_today Tw inflation_rate annual_return tax_rate
             Ti Mi I search_cap_years) = Ok res ->
  (exists r : R,
      _gross_monthly annual_return = Ok r
      /\ _corpus_after_tax (res_I res) (res_Mi res) r
           (py_round (res_Ti res * 12)) tax_rate
         = Ok (corpus_at_retirement res))
  /\ (forall v : R, Ti = Some v -> res_Ti res = v)
  /\ (forall v : R, Mi = Some v -> res_Mi res = v)
  /\ (forall v : R, I = Some v -> res_I res = v).
Proof.
  unfold solve_swp. intros H.
  destruct (negb _) eqn:Hc; [discriminate H |].
  apply negb_false_iff, Nat.eqb_eq in Hc.
  apply outcome_tbind_Ok in H. destruct H as (r & Hr & H).
  apply outcome_tbind_Ok in H. destruct H as ([[I0 Mi0] Ti0] & Hres & H).
  apply outcome_tbind_Ok in H. destruct H as (C & HC & H).
  cbn [outcome snd call ret] in Hr, HC, H. injection H as <-.
  cbn [res_I res_Mi res_Ti corpus_at_retirement].
  split; [exists r; split; assumption |].
  destruct Ti as [Ti' |], Mi as [Mi' |], I as [I' |]; try discriminate Hc;
    invert_run Hres; cbn [outcome snd ret] in Hres;
    injection Hres as <- <- <-;
    repeat split; intros v Hv; (discriminate Hv || (injection Hv as <-; reflexivity)).
Qed.

Lemma solve_swp_result_consistent_witness :
  exists res : swp_result,
    outcome (solve_swp 1000 10 0 0 (1 / 8) (Some 1) (Some 500) None 100) = Ok res
    /\ res_Ti res = 1 /\ res_Mi res = 500
    /\ exists r : R,
         _gross_monthly 0 = Ok r
         /\ _corpus_after_tax (res_I res) (res_Mi res) r
              (py_round (res_Ti res * 12)) (1 / 8)
            = Ok (corpus_at_retirement res).
Proof.
  assert (H1 : -1 < 0) by lra.
  assert (H3 : 0 <= 1 / 8 <= 1) by lra.
  assert (Hn : (0 <= py_round (1 * 12))%Z) by (apply py_round_nonneg; lra).
  pose proof (solve_swp_unknown_I_outcome 1000 10 0 0 (1 / 8) 1 100 H1 H1 500
                H3 Hn) as Hrun.
  cbv zeta in Hrun.
  eexists. split; [exact Hrun |].
  destruct (solve_swp_result_consistent _ _ _ _ _ _ _ _ _ _ Hrun)
    as (Hc & HTi & HMi & _).
  split; [now apply HTi |]. split; [now apply HMi |]. exact Hc.
Defined.

(** ** The closed-form branches, from a returned result *)










(** ** The closed-form branches as a trade-off *)




(** ** The recomputed corpus never exceeds the required corpus *)




(** ** The search, run by run *)

Lemma iterations_tbind {A B : Type} (m : Traced A) (k : A -> Traced B) :
  iterations (trace (tbind m k))
  = (iterations (trace m)
     + match outcome m with
       | Ok a => iterations (trace (k a))
       | Raise _ => 0
       end)%nat.
Proof.
  unfold trace, outcome. destruct m as [t [a | e]]; cbn [tbind fst snd].
  - destruct (k a) as [t' o]. cbn [fst]. apply iterations_app.
  - lia.
Qed.

(** A run of the loop entered at [k]: either it stops at the first month
    that qualifies, or no month up to the cap qualifies and it gives up;
    in both cases every month it looked at cost one iteration. *)
Lemma search_Ti_run
    (A_today Tw inflation_rate r tax_rate I Mi : R) (search_cap_years k : Z) :
  -1 < inflation_rate -> -1 < r -> (0 <= k)%Z ->
  let run := search_Ti A_today Tw inflation_rate r tax_rate I Mi
               search_cap_years k in
  (exists m : Z,
      (k <= m <= search_cap_years * 12)%Z
      /\ meets A_today Tw inflation_rate r tax_rate I Mi m
      /\ (forall j : Z, (k <= j < m)%Z ->
                        ~ meets A_today Tw inflation_rate r tax_rate I Mi j)
      /\ outcome run = Ok (IZR m / 12)
      /\ iterations (trace run) = Z.to_nat (m - k + 1))
  \/ ((forall j : Z, (k <= j <= search_cap_years * 12)%Z ->
                     ~ meets A_today Tw inflation_rate r tax_rate I Mi j)
      /\ outcome run = Raise RuntimeError
      /\ iterations (trace run) = Z.to_nat (search_cap_years * 12 + 1 - k)).
Proof.
  intros Hi Hr. cbv zeta.
  remember (Z.to_nat (search_cap_years * 12 + 1 - k)) as d eqn:Hd.
  revert k Hd. induction d as [| d IH]; intros k Hd Hk.
  - right. rewrite search_Ti_exit by lia.
    split; [intros j Hj; lia |]. split; reflexivity.
  - rewrite search_Ti_step by (assumption || lia).
    destruct (Rge_dec _ _) as [Hge | Hlt].
    + left. exists k. split; [lia |]. split; [exact Hge |].
      split; [intros j Hj; lia |]. split; [reflexivity |].
      replace (k - k + 1)%Z with 1%Z by lia. reflexivity.
    + destruct (IH (k + 1)%Z ltac:(lia) ltac:(lia))
        as [(m & Hm & Hmeets & Hfirst & Hout & Hit) | (Hnone & Hout & Hit)];
        destruct (search_Ti _ _ _ _ _ _ _ _ (k + 1)) as [t o];
        cbn [outcome trace fst snd] in *.
      * left. exists m. split; [lia |]. split; [exact Hmeets |].
        split.
        { intros j Hj. destruct (Z.eq_dec j k) as [-> | Hne];
            [exact Hlt | apply Hfirst; lia]. }
        split; [exact Hout |].
        unfold iterations in *. cbn [filter is_iteration length].
        rewrite Hit. lia.
      * right. split.
        { intros j Hj. destruct (Z.eq_dec j k) as [-> | Hne];
            [exact Hlt | apply Hnone; lia]. }
        split; [exact Hout |].
        unfold iterations in *. cbn [filter is_iteration length].
        rewrite Hit. lia.
Qed.

Lemma solve_swp_Ti_iterations
    (A_today Tw inflation_rate annual_return tax_rate I Mi : R)
    (search_cap_years : Z) :
  -1 < annual_return ->
  iterations (trace (solve_swp A_today Tw inflation_rate annual_return tax_rate
                       None (Some Mi) (Some I) search_cap_years))
  = iterations (trace (search_Ti A_today Tw inflation_rate
                         (spec_monthly_rate annual_return) tax_rate I Mi
                         search_cap_years 0)).
Proof.
  intros Ha. unfold solve_swp. cbn [count_None filter length Nat.eqb negb].
  rewrite gross_monthly_ok by exact Ha.
  rewrite iterations_tbind. cbn [call outcome trace fst snd].
  rewrite iterations_tbind, iterations_tbind.
  rewrite outcome_tbind.
  destruct (search_Ti _ _ _ _ _ _ _ _ _) as [t [Ti' | e]];
    cbn [outcome trace fst snd ret].
  - rewrite iterations_tbind. cbn [call outcome trace fst snd].
    destruct (_corpus_after_tax _ _ _ _ _); cbn; lia.
  - cbn. lia.
Qed.

(** The outcome of the unknown-[Ti] branch, with its cost. *)
Lemma solve_swp_Ti_run
    (A_today Tw inflation_rate annual_return tax_rate I Mi : R)
    (search_cap_years : Z) :
  -1 < inflation_rate -> -1 < annual_return ->
  let r := spec_monthly_rate annual_return in
  let run := solve_swp A_today Tw inflation_rate annual_return tax_rate
               None (Some Mi) (Some I) search_cap_years in
  (exists m : Z,
      (0 <= m <= search_cap_years * 12)%Z
      /\ meets A_today Tw inflation_rate r tax_rate I Mi m
      /\ (forall j : Z, (0 <= j < m)%Z ->
                        ~ meets A_today Tw inflation_rate r tax_rate I Mi j)
      /\ outcome run
         = Ok {| res_I := I; res_Mi := Mi; res_Ti := IZR m / 12;
                 corpus_at_retirement :=
                   spec_post_tax_corpus I Mi r (Z.to_nat m) tax_rate |}
      /\ iterations (trace run) = Z.to_nat (m + 1))
  \/ ((forall j : Z, (0 <= j <= search_cap_years * 12)%Z ->
                     ~ meets A_today Tw inflation_rate r tax_rate I Mi j)
      /\ outcome run = Raise RuntimeError
      /\ iterations (trace run) = Z.to_nat (search_cap_years * 12 + 1)).
Proof.
  intros Hi Ha r run. unfold run.
  rewrite solve_swp_Ti_iterations, solve_swp_Ti_outcome by exact Ha. fold r.
  destruct (search_Ti_run A_today Tw inflation_rate r tax_rate I Mi
              search_cap_years 0 Hi (spec_monthly_rate_gt annual_return)
              ltac:(lia))
    as [(m & Hm & Hmeets & Hfirst & Hout & Hit) | (Hnone & Hout & Hit)].
  - left. exists m. split; [exact Hm |]. split; [exact Hmeets |].
    split; [exact Hfirst |].
    rewrite Hout, py_round_months, corpus_after_tax_ok by lia.
    split; [reflexivity |]. rewrite Hit. f_equal. lia.
  - right. split; [exact Hnone |].
    rewrite Hout. split; [reflexivity |]. rewrite Hit. f_equal. lia.
Qed.

(** ** The search, on the values the engines return *)

Lemma reaches_not_short (A_today Tw infl r tax I Mi : R) (m : Z) :
  reaches A_today Tw infl r tax I Mi m ->
  falls_short A_today Tw infl r tax I Mi m -> False.
Proof.
  intros (cn & ch & Hn & Hh & Hge) (cn' & ch' & Hn' & Hh' & Hlt).
  rewrite Hn in Hn'. rewrite Hh in Hh'.
  injection Hn' as <-. injection Hh' as <-. now apply Hlt.
Qed.

(** A run of the loop entered at [k] ends in one of three ways: at the
    first month whose values pass the test, at the cap after every month
    fell short, or at the first month at which an engine raises. *)
Lemma search_Ti_cases
    (A_today Tw infl r tax I Mi : R) (cap k : Z) :
  let run := outcome (search_Ti A_today Tw infl r tax I Mi cap k) in
  (exists m : Z,
      (k <= m <= cap * 12)%Z
      /\ reaches A_today Tw infl r tax I Mi m
      /\ (forall j : Z, (k <= j < m)%Z -> falls_short A_today Tw infl r tax I Mi j)
      /\ run = Ok (IZR m / 12))
  \/ ((forall j : Z, (k <= j <= cap * 12)%Z ->
                     falls_short A_today Tw infl r tax I Mi j)
      /\ run = Raise RuntimeError)
  \/ (exists (m : Z) (e : exn),
         (k <= m <= cap * 12)%Z
         /\ (forall j : Z, (k <= j < m)%Z ->
                           falls_short A_today Tw infl r tax I Mi j)
         /\ ~ reaches A_today Tw infl r tax I Mi m
         /\ ~ falls_short A_today Tw infl r tax I Mi m
         /\ arith_exn e
         /\ run = Raise e).
Proof.
  cbv zeta.
  remember (Z.to_nat (cap * 12 + 1 - k)) as d eqn:Hd.
  revert k Hd. induction d as [| d IH]; intros k Hd.
  - right. left. rewrite search_Ti_exit by lia.
    split; [intros j Hj; lia | reflexivity].
  - rewrite search_Ti_enter by lia.
    rewrite outcome_tbind. cbn [tick outcome snd].
    rewrite outcome_tbind. cbn [call outcome snd].
    destruct (_corpus_needed_for_swp A_today (IZR k / 12) Tw infl r)
      as [cn | e] eqn:Hn.
    + rewrite outcome_tbind. cbn [call outcome snd].
      destruct (_corpus_after_tax I Mi r k tax) as [ch | e] eqn:Hh.
      * destruct (Rge_dec ch cn) as [Hge | Hlt].
        -- left. exists k. split; [lia |].
           split; [exists cn, ch; repeat split; assumption |].
           split; [intros j Hj; lia | reflexivity].
        -- assert (Hk : falls_short A_today Tw infl r tax I Mi k).
           { exists cn, ch. split; [exact Hn |]. split; [exact Hh | exact Hlt]. }
           destruct (IH (k + 1)%Z ltac:(lia))
             as [(m & Hm & Hmeets & Hfirst & Hout)
                | [(Hnone & Hout) | (m & e & Hm & Hfirst & Hnr & Hns & He & Hout)]].
           ++ left. exists m. split; [lia |]. split; [exact Hmeets |].
              split; [| exact Hout].
              intros j Hj. destruct (Z.eq_dec j k) as [-> | Hne];
                [exact Hk | apply Hfirst; lia].
           ++ right. left. split; [| exact Hout].
              intros j Hj. destruct (Z.eq_dec j k) as [-> | Hne];
                [exact Hk | apply Hnone; lia].
           ++ right. right. exists m, e. split; [lia |].
              split.
              { intros j Hj. destruct (Z.eq_dec j k) as [-> | Hne];
                  [exact Hk | apply Hfirst; lia]. }
              repeat split; assumption.
      * right. right. exists k, e. split; [lia |].
        split; [intros j Hj; lia |].
        split.
        { intros (cn' & ch' & _ & Hh' & _). rewrite Hh in Hh'. discriminate Hh'. }
        split.
        { intros (cn' & ch' & _ & Hh' & _). rewrite Hh in Hh'. discriminate Hh'. }
        split; [| reflexivity].
        apply (corpus_after_tax_raises I Mi r k tax). exact Hh.
    + right. right. exists k, e. split; [lia |].
      split; [intros j Hj; lia |].
      split.
      { intros (cn' & ch' & Hn' & _). rewrite Hn in Hn'. discriminate Hn'. }
      split.
      { intros (cn' & ch' & Hn' & _). rewrite Hn in Hn'. discriminate Hn'. }
      split; [| reflexivity].
      apply (corpus_needed_raises A_today (IZR k / 12) Tw infl r). exact Hn.
Qed.

Lemma arith_exn_not_RuntimeError (e : exn) : arith_exn e -> e <> RuntimeError.
Proof. intros [-> | ->]; discriminate. Qed.

(** The unknown-[Ti] branch once the rate conversion has returned [r]. *)
Lemma solve_swp_Ti_outcome_at
    (A_today Tw inflation_rate annual_return tax_rate I Mi : R)
    (search_cap_years : Z) (r : R) :
  _gross_monthly annual_return = Ok r ->
  outcome (solve_swp A_today Tw inflation_rate annual_return tax_rate
             None (Some Mi) (Some I) search_cap_years) =
  match outcome (search_Ti A_today Tw inflation_rate r tax_rate I Mi
                   search_cap_years 0) with
  | Ok Ti' =>
      bind (_corpus_after_tax I Mi r (py_round (Ti' * 12)) tax_rate)
           (fun C => Ok {| res_I := I; res_Mi := Mi; res_Ti := Ti';
                           corpus_at_retirement := C |})
  | Raise e => Raise e
  end.
Proof.
  intros Hr. unfold solve_swp. cbn [count_None filter length Nat.eqb negb].
  rewrite Hr.
  rewrite outcome_tbind. cbn [call outcome snd].
  rewrite !outcome_tbind.
  destruct (outcome (search_Ti _ _ _ _ _ _ _ _ _)) as [Ti' | e];
    [| reflexivity].
  cbn [ret outcome snd]. rewrite outcome_tbind. cbn [call outcome snd].
  destruct (_corpus_after_tax _ _ _ _ _); reflexivity.
Qed.

(** C1: once the rate conversion has returned the monthly rate [r],
    [solve_swp] with [Ti] unset returns a result exactly when there is a
    first month [m] in [0, 12 * search_cap_years] at which the after-tax
    corpus returned by the engine of section 4.3 (with [n = m]) meets or
    exceeds the required corpus returned by the engine of section 4.4 (with
    [Ti = m / 12]), every earlier month having fallen short; the result
    then holds [Ti = m / 12], the given [I] and [Mi], and the after-tax
    corpus of month [m].  It raises the goal-unreachable error exactly when
    every month of the range falls short. *)
Theorem solve_swp_unknown_Ti
    (A_today Tw inflation_rate annual_return tax_rate I Mi : R)
    (search_cap_years : Z) (r : R) :
  _gross_monthly annual_return = Ok r ->
  let run := outcome (solve_swp A_today Tw inflation_rate annual_return
                        tax_rate None (Some Mi) (Some I) search_cap_years) in
  (forall res : swp_result,
      run = Ok res <->
      exists m : Z,
        (0 <= m <= 12 * search_cap_years)%Z
        /\ reaches A_today Tw inflation_rate r tax_rate I Mi m
        /\ (forall j : Z, (0 <= j < m)%Z ->
                          falls_short A_today Tw inflation_rate r tax_rate I Mi j)
        /\ res_Ti res = IZR m / 12
        /\ res_I res = I /\ res_Mi res = Mi
        /\ _corpus_after_tax I Mi r m tax_rate = Ok (corpus_at_retirement res))
  /\ (run = Raise RuntimeError <->
      forall j : Z, (0 <= j <= 12 * search_cap_years)%Z ->
                    falls_short A_today Tw inflation_rate r tax_rate I Mi j).
Proof.
  intros Hr run. unfold run.
  rewrite (solve_swp_Ti_outcome_at _ _ _ _ _ _ _ _ r Hr).
  destruct (search_Ti_cases A_today Tw inflation_rate r tax_rate I Mi
              search_cap_years 0)
    as [(m & Hm & Hmeets & Hfirst & Hout)
       | [(Hnone & Hout) | (m & e & Hm & Hfirst & Hnr & Hns & He & Hout)]];
    rewrite Hout.
  - rewrite py_round_months.
    destruct Hmeets as (cn & ch & Hn & Hh & Hge). rewrite Hh. cbn [bind].
    assert (Hmeets : reaches A_today Tw inflation_rate r tax_rate I Mi m)
      by (exists cn, ch; repeat split; assumption).
    split.
    + intros res. split.
      * intros H. injection H as <-. exists m.
        cbn [res_Ti res_I res_Mi corpus_at_retirement].
        split; [lia |]. split; [exact Hmeets |].
        split; [exact Hfirst |]. repeat split. exact Hh.
      * intros (m' & Hm' & Hmeets' & Hfirst' & HTi & HI & HMi & Hc).
        assert (m' = m).
        { destruct (Z.lt_trichotomy m m') as [Hlt | [Heq | Hgt]].
          - exfalso. apply (reaches_not_short _ _ _ _ _ _ _ m Hmeets).
            apply Hfirst'. lia.
          - now symmetry.
          - exfalso. apply (reaches_not_short _ _ _ _ _ _ _ m' Hmeets').
            apply Hfirst. lia. }
        subst m'. rewrite Hh in Hc. injection Hc as Hc.
        destruct res as [rI rMi rTi rC].
        cbn [res_Ti res_I res_Mi corpus_at_retirement] in *.
        subst. reflexivity.
    + split; [intros H; discriminate H |].
      intros Hnone. exfalso.
      apply (reaches_not_short _ _ _ _ _ _ _ m Hmeets). apply Hnone. lia.
  - split.
    + intros res. split; [intros H; discriminate H |].
      intros (m' & Hm' & Hmeets' & _). exfalso.
      apply (reaches_not_short _ _ _ _ _ _ _ m' Hmeets'). apply Hnone. lia.
    + split; [intros _ j Hj; apply Hnone; lia | reflexivity].
  - split.
    + intros res. split; [intros H; discriminate H |].
      intros (m' & Hm' & Hmeets' & Hfirst' & _). exfalso.
      destruct (Z.lt_trichotomy m m') as [Hlt | [Heq | Hgt]].
      * apply Hns. apply Hfirst'. lia.
      * subst m'. now apply Hnr.
      * apply (reaches_not_short _ _ _ _ _ _ _ m' Hmeets'). apply Hfirst. lia.
    + split.
      * intros H. injection H as ->.
        now elim (arith_exn_not_RuntimeError RuntimeError He).
      * intros Hnone. exfalso. apply Hns. apply Hnone. lia.
Qed.

Lemma solve_swp_unknown_Ti_witness :
  _gross_monthly 0 = Ok 0
  /\ outcome (solve_swp 1 1 0 0 0 None (Some 10) (Some 2) 1)
     = Ok {| res_I := 2; res_Mi := 10; res_Ti := 1 / 12;
             corpus_at_retirement := 12 |}
  /\ outcome (solve_swp 1 1 0 0 0 None (Some 0) (Some 0) 1) = Raise RuntimeError.
Proof.
  assert (Hr : _gross_monthly 0 = Ok 0).
  { rewrite gross_monthly_ok by lra. now rewrite spec_monthly_rate_0. }
  assert (H12 : py_round (1 * 12) = 12%Z).
  { replace (1 * 12) with (IZR 12) by lra. apply py_round_IZR. }
  assert (Hneed : forall j : Z,
             _corpus_needed_for_swp 1 (IZR j / 12) 1 0 0 = Ok 12).
  { intros j. rewrite corpus_needed_ok by lra.
    rewrite spec_required_corpus_zero_rates, H12. f_equal. lra. }
  assert (Hhave : forall (L M : R) (j : Z), (0 <= j)%Z ->
             _corpus_after_tax L M 0 j 0 = Ok (L + M * IZR j)).
  { intros L M j Hj. rewrite corpus_after_tax_ok by exact Hj.
    rewrite spec_post_tax_corpus_zero_rate, INR_to_nat by exact Hj.
    reflexivity. }
  split; [exact Hr |]. split.
  - apply (proj1 (solve_swp_unknown_Ti 1 1 0 0 0 2 10 1 0 Hr)).
    exists 1%Z. cbn [res_Ti res_I res_Mi corpus_at_retirement].
    split; [lia |]. split.
    { exists 12, (2 + 10 * 1). split; [apply Hneed |].
      split; [apply Hhave; lia | lra]. }
    split.
    { intros j Hj. assert (j = 0%Z) by lia. subst j.
      exists 12, (2 + 10 * 0). split; [apply Hneed |].
      split; [apply Hhave; lia | intros H; lra]. }
    repeat split. rewrite Hhave by lia. f_equal. lra.
  - apply (proj2 (solve_swp_unknown_Ti 1 1 0 0 0 0 0 1 0 Hr)).
    intros j Hj. exists 12, (0 + 0 * IZR j). split; [apply Hneed |].
    split; [apply Hhave; lia | intros H; lra].
Defined.

(** X7: the cost of the search is exact: a run that returns [Ti] has
    performed [12 * Ti + 1] loop iterations, and a run that gives up has
    performed [12 * search_cap_years + 1] of them (none when that number is
    not positive). *)
Theorem solve_swp_unknown_Ti_cost
    (A_today Tw inflation_rate annual_return tax_rate I Mi : R)
    (search_cap_years : Z) :
  -1 < inflation_rate -> -1 < annual_return ->
  let run := solve_swp A_today Tw inflation_rate annual_return tax_rate
               None (Some Mi) (Some I) search_cap_years in
  (forall res : swp_result,
      outcome run = Ok res ->
      INR (iterations (trace run)) = 12 * res_Ti res + 1)
  /\ (outcome run = Raise RuntimeError ->
      iterations (trace run) = Z.to_nat (12 * search_cap_years + 1)).
Proof.
  intros Hi Ha run.
  destruct (solve_swp_Ti_run A_today Tw inflation_rate annual_return tax_rate
              I Mi search_cap_years Hi Ha)
    as [(m & Hm & _ & _ & Hout & Hit) | (_ & Hout & Hit)];
    fold run in Hout, Hit.
  - split.
    + intros res Hres. rewrite Hout in Hres. injection Hres as <-.
      cbn [res_Ti]. rewrite Hit, INR_to_nat, plus_IZR by lia. field.
    + intros He. rewrite Hout in He. discriminate He.
  - split.
    + intros res Hres. rewrite Hout in Hres. discriminate Hres.
    + intros _. rewrite Hit. f_equal. lia.
Qed.

Lemma solve_swp_unknown_Ti_cost_witness :
  (-1 < 0 /\ -1 < 0)
  /\ (outcome (solve_swp 1 1 0 0 0 None (Some 0) (Some 0) 1) = Raise RuntimeError ->
      iterations (trace (solve_swp 1 1 0 0 0 None (Some 0) (Some 0) 1)) = 13%nat).
Proof.
  split; [lra |].
  apply (solve_swp_unknown_Ti_cost 1 1 0 0 0 0 0 1); lra.
Defined.

(** ** How the solved period moves with the cap *)

(** X8: raising the cap never changes an answer: if the search returns a
    result under [search_cap_years], it returns the same result under any
    larger cap; and if it gives up under the larger cap, it gives up under
    the smaller one. *)
Theorem solve_swp_unknown_Ti_cap
    (A_today Tw inflation_rate annual_return tax_rate I Mi : R)
    (cap cap' : Z) :
  -1 < inflation_rate -> -1 < annual_return -> (cap <= cap')%Z ->
  (forall res : swp_result,
      outcome (solve_swp A_today Tw inflation_rate annual_return tax_rate
                 None (Some Mi) (Some I) cap) = Ok res ->
      outcome (solve_swp A_today Tw inflation_rate annual_return tax_rate
                 None (Some Mi) (Some I) cap') = Ok res)
  /\ (outcome (solve_swp A_today Tw inflation_rate annual_return tax_rate
                 None (Some Mi) (Some I) cap') = Raise RuntimeError ->
      outcome (solve_swp A_today Tw inflation_rate annual_return tax_rate
                 None (Some Mi) (Some I) cap) = Raise RuntimeError).
Proof.
  intros Hi Ha Hcap.
  destruct (solve_swp_Ti_run A_today Tw inflation_rate annual_return tax_rate
              I Mi cap Hi Ha)
    as [(m & Hm & Hmeets & Hfirst & Hout & _) | (Hnone & Hout & _)];
    destruct (solve_swp_Ti_run A_today Tw inflation_rate annual_return tax_rate
                I Mi cap' Hi Ha)
      as [(m' & Hm' & Hmeets' & Hfirst' & Hout' & _) | (Hnone' & Hout' & _)];
    rewrite Hout, Hout'.
  - assert (m' = m).
    { destruct (Z.lt_trichotomy m m') as [Hlt | [Heq | Hgt]].
      - exfalso. apply (Hfirst' m); [lia | exact Hmeets].
      - now symmetry.
      - exfalso. apply (Hfirst m'); [lia | exact Hmeets']. }
    subst m'. split; [intros res H; exact H | intros H; discriminate H].
  - exfalso. apply (Hnone' m); [lia | exact Hmeets].
  - split; [intros res H; discriminate H | intros H; discriminate H].
  - split; [intros res H; discriminate H | reflexivity].
Qed.

Lemma meets_zero_rates (A_today Tw tax I Mi : R) (m : Z) :
  meets A_today Tw 0 (spec_monthly_rate 0) tax I Mi m
  <-> I + Mi * INR (Z.to_nat m) >= A_today * IZR (py_round (Tw * 12)).
Proof.
  unfold meets.
  rewrite spec_monthly_rate_0, spec_post_tax_corpus_zero_rate,
    spec_required_corpus_zero_rates.
  reflexivity.
Qed.

(** A plan at zero rates: 12 are required, 2 are there and 10 come in each
    month, so one month is enough. *)
Lemma solve_swp_one_month_run :
  outcome (solve_swp 1 1 0 0 0 None (Some 10) (Some 2) 1)
  = Ok {| res_I := 2; res_Mi := 10; res_Ti := 1 / 12;
          corpus_at_retirement := 12 |}.
Proof.
  assert (H12 : py_round (1 * 12) = 12%Z).
  { replace (1 * 12) with (IZR 12) by lra. apply py_round_IZR. }
  destruct (solve_swp_Ti_run 1 1 0 0 0 2 10 1 ltac:(lra) ltac:(lra))
    as [(m & Hm & Hmeets & Hfirst & Hout & _) | (Hnone & _ & _)].
  - assert (m = 1%Z).
    { destruct (Z.eq_dec m 0) as [-> | Hne].
      - apply meets_zero_rates in Hmeets. rewrite H12 in Hmeets.
        simpl in Hmeets. lra.
      - destruct (Z.eq_dec m 1) as [-> | Hne1]; [reflexivity |].
        exfalso. apply (Hfirst 1%Z); [lia |].
        apply meets_zero_rates. rewrite H12. simpl. lra. }
    subst m. rewrite Hout. f_equal.
    rewrite spec_monthly_rate_0, spec_post_tax_corpus_zero_rate.
    simpl. f_equal. lra.
  - exfalso. apply (Hnone 1%Z); [lia |].
    apply meets_zero_rates. rewrite H12. simpl. lra.
Qed.

Lemma solve_swp_unknown_Ti_cap_witness :
  (-1 < 0 /\ -1 < 0 /\ (1 <= 100)%Z)
  /\ outcome (solve_swp 1 1 0 0 0 None (Some 10) (Some 2) 100)
     = Ok {| res_I := 2; res_Mi := 10; res_Ti := 1 / 12;
             corpus_at_retirement := 12 |}.
Proof.
  split; [repeat split; (lra || lia) |].
  refine (proj1 (solve_swp_unknown_Ti_cap 1 1 0 0 0 2 10 1 100 _ _ _) _
            solve_swp_one_month_run); (lra || lia).
Defined.

(** * The search under a change of the plan *)

(** If every month that qualifies for one plan qualifies for another, the
    other plan is reached no later. *)
Lemma solve_swp_Ti_easier
    (A1 A2 Tw1 Tw2 infl1 infl2 ann1 ann2 tax1 tax2 I1 I2 Mi1 Mi2 : R)
    (search_cap_years : Z) (res1 : swp_result) :
  -1 < infl1 -> -1 < ann1 -> -1 < infl2 -> -1 < ann2 ->
  (forall m : Z,
      (0 <= m)%Z ->
      meets A1 Tw1 infl1 (spec_monthly_rate ann1) tax1 I1 Mi1 m ->
      meets A2 Tw2 infl2 (spec_monthly_rate ann2) tax2 I2 Mi2 m) ->
  outcome (solve_swp A1 Tw1 infl1 ann1 tax1 None (Some Mi1) (Some I1)
             search_cap_years) = Ok res1 ->
  exists m1 m2 : Z,
    (0 <= m2 <= m1)%Z
    /\ res1 = {| res_I := I1; res_Mi := Mi1; res_Ti := IZR m1 / 12;
                 corpus_at_retirement :=
                   spec_post_tax_corpus I1 Mi1 (spec_monthly_rate ann1)
                     (Z.to_nat m1) tax1 |}
    /\ outcome (solve_swp A2 Tw2 infl2 ann2 tax2 None (Some Mi2) (Some I2)
                  search_cap_years)
       = Ok {| res_I := I2; res_Mi := Mi2; res_Ti := IZR m2 / 12;
               corpus_at_retirement :=
                 spec_post_tax_corpus I2 Mi2 (spec_monthly_rate ann2)
                   (Z.to_nat m2) tax2 |}.
Proof.
  intros Hi1 Ha1 Hi2 Ha2 Himp Hrun1.
  destruct (solve_swp_Ti_run A1 Tw1 infl1 ann1 tax1 I1 Mi1 search_cap_years
              Hi1 Ha1)
    as [(m & Hm & Hmeets & _ & Hout & _) | (_ & Hout & _)];
    rewrite Hout in Hrun1; [| discriminate Hrun1].
  injection Hrun1 as <-.
  assert (Hmeets2 := Himp m ltac:(lia) Hmeets).
  destruct (solve_swp_Ti_run A2 Tw2 infl2 ann2 tax2 I2 Mi2 search_cap_years
              Hi2 Ha2)
    as [(m' & Hm' & _ & Hfirst' & Hout' & _) | (Hnone' & _ & _)].
  - exists m, m'. split; [| split; [reflexivity | exact Hout']].
    split; [lia |].
    destruct (Z_le_gt_dec m' m) as [H | H]; [exact H |].
    exfalso. apply (Hfirst' m); [lia | exact Hmeets2].
  - exfalso. apply (Hnone' m); [lia | exact Hmeets2].
Qed.

Lemma spec_pv_factor_nonneg (g r : R) (M : Z) :
  -1 < g -> -1 < r -> (0 <= M)%Z -> 0 <= spec_pv_factor g r M.
Proof.
  intros Hg Hr HM. rewrite <- (spec_pv_factor_zero g r).
  apply spec_pv_factor_le; (assumption || lia).
Qed.

Lemma spec_required_corpus_mono_A (A1 A2 Ti Tw infl r : R) :
  -1 < r -> 0 <= Tw -> A1 <= A2 ->
  spec_required_corpus A1 Ti Tw infl r <= spec_required_corpus A2 Ti Tw infl r.
Proof.
  intros Hr HTw HA. rewrite !spec_required_corpus_factor.
  pose proof (Rpower_pos (1 + infl) Ti).
  assert (0 <= spec_pv_factor (Rpower (1 + infl) (1 / 12) - 1) r
                 (py_round (Tw * 12))).
  { apply spec_pv_factor_nonneg;
      [apply monthly_growth_gt | exact Hr | apply py_round_nonneg; lra]. }
  apply Rmult_le_compat_r; [assumption |].
  apply Rmult_le_compat_r; lra.
Qed.

Lemma spec_post_tax_corpus_mono_tax (L M r : R) (n : nat) (tax1 tax2 : R) :
  tax1 <= tax2 ->
  spec_post_tax_corpus L M r n tax2 <= spec_post_tax_corpus L M r n tax1.
Proof.
  intros Ht. unfold spec_post_tax_corpus.
  pose proof (Rmax_r (spec_future_value L M r n - (L + M * INR n)) 0).
  assert (tax1 * Rmax (spec_future_value L M r n - (L + M * INR n)) 0
          <= tax2 * Rmax (spec_future_value L M r n - (L + M * INR n)) 0)
    by (apply Rmult_le_compat_r; assumption).
  lra.
Qed.

(** X17: a harder goal is never reached sooner: if the search returns [Ti]
    for a withdrawal [A2] and a tax rate [tax2], then for any smaller
    withdrawal [A1 <= A2] and lower tax rate [tax1 <= tax2] it returns as
    well, with a period no longer than [Ti]. *)
Theorem solve_swp_unknown_Ti_harder_goal
    (A1 A2 Tw inflation_rate annual_return tax1 tax2 I Mi : R)
    (search_cap_years : Z) (res2 : swp_result) :
  -1 < inflation_rate -> -1 < annual_return -> 0 <= Tw ->
  A1 <= A2 -> tax1 <= tax2 ->
  outcome (solve_swp A2 Tw inflation_rate annual_return tax2
             None (Some Mi) (Some I) search_cap_years) = Ok res2 ->
  exists res1 : swp_result,
    outcome (solve_swp A1 Tw inflation_rate annual_return tax1
               None (Some Mi) (Some I) search_cap_years) = Ok res1
    /\ res_Ti res1 <= res_Ti res2.
Proof.
  intros Hi Ha HTw HA Ht Hrun.
  destruct (solve_swp_Ti_easier A2 A1 Tw Tw inflation_rate inflation_rate
              annual_return annual_return tax2 tax1 I I Mi Mi
              search_cap_years res2 Hi Ha Hi Ha) as (m2 & m1 & Hm & -> & Hout).
  - intros m Hm. unfold meets. intros Hmeets.
    pose proof (spec_required_corpus_mono_A A1 A2 (IZR m / 12) Tw
                  inflation_rate (spec_monthly_rate annual_return)
                  (spec_monthly_rate_gt annual_return) HTw HA).
    pose proof (spec_post_tax_corpus_mono_tax I Mi
                  (spec_monthly_rate annual_return) (Z.to_nat m) tax1 tax2 Ht).
    lra.
  - exact Hrun.
  - eexists. split; [exact Hout |]. cbn [res_Ti].
    destruct Hm as [_ Hle]. apply IZR_le in Hle. lra.
Qed.

Lemma solve_swp_unknown_Ti_harder_goal_witness :
  (-1 < 0 /\ -1 < 0 /\ 0 <= 1 /\ 1 / 2 <= 1 /\ 0 <= 0)
  /\ exists res1 : swp_result,
       outcome (solve_swp (1 / 2) 1 0 0 0 None (Some 10) (Some 2) 1) = Ok res1
       /\ res_Ti res1 <= 1 / 12.
Proof.
  split; [lra |].
  apply (solve_swp_unknown_Ti_harder_goal (1 / 2) 1 1 0 0 0 0 2 10 1 _
           ltac:(lra) ltac:(lra) ltac:(lra) ltac:(lra) ltac:(lra)
           solve_swp_one_month_run).
Defined.
